(** * eaglefrac (pressurized phase-field fracture driver): a shallow embedding

    The development follows [src/eaglefrac-pressurized.cc] and the
    [phase_field] header shipped with it.  Every C++ [double] is read as an
    exact rational ([Q]); [int] values are read as [Z] (no counter of the
    program comes near the 32-bit range in a run).  Calls into deal.II and
    into the parts of the repository that are not among the sources are
    taken as parameters of the sections below. *)

From Stdlib Require Import ZArith QArith Qabs Qfield Lqa Lia Bool Ascii String.
From stdpp Require Import base list gmap.

Local Open Scope Q_scope.

(** ** Finite sums of rationals *)

Fixpoint sumQ (n : nat) (f : nat -> Q) : Q :=
  match n with
  | O => 0
  | S k => sumQ k f + f k
  end.

(** [std::max(a, b)] is [(a < b) ? b : a]. *)
Definition std_max (a b : Q) : Q := if Qlt_le_dec a b then b else a.

(** ** Namespace [phase_field]: stress decomposition and residual assembly *)

Module phase_field.

(** [const double mu = 1000, lambda = 1e6;]
    [const double kappa = 1e-12, gamma_c = 1, e = 1e-6;] *)
Definition mu : Q := 1000.
Definition lambda : Q := 1000000.
Definition kappa : Q := 1 # 1000000000000.
Definition gamma_c : Q := 1.
Definition e : Q := 1 # 1000000.

(** [Tensor<1,dim>] and [SymmetricTensor<2,dim>]: components by index; only
    the indices below [dim] are meaningful. *)
Definition Tensor1 := nat -> Q.
Definition SymmetricTensor := nat -> nat -> Q.

Definition tensor_zero : SymmetricTensor := fun _ _ => 0.
Definition tensor_add (a b : SymmetricTensor) : SymmetricTensor :=
  fun i j => a i j + b i j.
Definition tensor_sub (a b : SymmetricTensor) : SymmetricTensor :=
  fun i j => a i j - b i j.
Definition tensor_scale (c : Q) (a : SymmetricTensor) : SymmetricTensor :=
  fun i j => c * a i j.
(** [t[a][a] += v] on a diagonal entry. *)
Definition add_at_diag (t : SymmetricTensor) (a : nat) (v : Q) : SymmetricTensor :=
  fun i j => if (i =? a)%nat && (j =? a)%nat then t i j + v else t i j.
Definition unit_symmetric_tensor : SymmetricTensor :=
  fun i j => if (i =? j)%nat then 1 else 0.
(** A diagonal tensor with the given diagonal. *)
Definition diagonal (d : nat -> Q) : SymmetricTensor :=
  fun i j => if (i =? j)%nat then d i else 0.
(** The dyadic product [v (x) v]. *)
Definition outer (v : Tensor1) : SymmetricTensor := fun i j => v i * v j.

Section Dim.

(** The template parameter [dim]. *)
Variable dim : nat.

(** Equality of the [dim] x [dim] components. *)
Definition tensor_eq (a b : SymmetricTensor) : Prop :=
  forall i j, (i < dim)%nat -> (j < dim)%nat -> a i j == b i j.

(** [trace(t)] *)
Definition trace (t : SymmetricTensor) : Q := sumQ dim (fun i => t i i).

(** [a * b] on symmetric tensors: the double contraction. *)
Definition scalar_product (a b : SymmetricTensor) : Q :=
  sumQ dim (fun i => sumQ dim (fun j => a i j * b i j)).

(** [contract(u, v)] on rank-1 tensors. *)
Definition contract (u v : Tensor1) : Q := sumQ dim (fun i => u i * v i).

(** The helper [constitutive_model::get_strain_tensor_plus] lives in
    [ConstitutiveModel.cc], which is not among the sources. *)
Variable get_strain_tensor_plus : SymmetricTensor -> SymmetricTensor.

(** [PhaseFieldSolver<dim>::get_stress_decomposition]; the two output
    references are returned as a pair (plus, minus). *)
Definition get_stress_decomposition (strain_tensor : SymmetricTensor)
  : SymmetricTensor * SymmetricTensor :=
  let strain_tensor_plus := get_strain_tensor_plus strain_tensor in
  let trace_eps := trace strain_tensor in
  let trace_eps_pos := std_max trace_eps 0 in
  let stress_tensor_plus := tensor_scale (2 * mu) strain_tensor_plus in
  let stress_tensor_plus := add_at_diag stress_tensor_plus 0 (lambda * trace_eps_pos) in
  let stress_tensor_plus := add_at_diag stress_tensor_plus 1 (lambda * trace_eps_pos) in
  let stress_tensor_minus :=
    tensor_scale (2 * mu) (tensor_sub strain_tensor strain_tensor_plus) in
  let stress_tensor_minus :=
    add_at_diag stress_tensor_minus 0 (lambda * (trace_eps - trace_eps_pos)) in
  let stress_tensor_minus :=
    add_at_diag stress_tensor_minus 1 (lambda * (trace_eps - trace_eps_pos)) in
  (stress_tensor_plus, stress_tensor_minus).

(** The isotropic linear-elastic stress [2 mu eps + lambda tr(eps) I]. *)
Definition isotropic_stress (eps : SymmetricTensor) : SymmetricTensor :=
  tensor_add (tensor_scale (2 * mu) eps)
             (tensor_scale (lambda * trace eps) unit_symmetric_tensor).

(** *** Residual assembly, [PhaseFieldSolver<dim>::assemble_rhs_vector] *)

(** What [fe_values] gives on one cell after [fe_values.reinit(cell)] and the
    [get_function_*] calls: values at the quadrature point [q] and of the
    shape function [i]. *)
Record CellValues := {
  is_locally_owned : bool;
  JxW : nat -> Q;
  strain_tensor : nat -> SymmetricTensor;
  phi_values : nat -> Q;
  old_phi_values : nat -> Q;
  old_old_phi_values : nat -> Q;
  grad_phi_values : nat -> Tensor1;
  symmetric_gradient : nat -> nat -> SymmetricTensor;
  value : nat -> nat -> Q;
  gradient : nat -> nat -> Tensor1
}.

(** [fe.dofs_per_cell] and [quadrature_formula.size()]. *)
Variable dofs_per_cell : nat.
Variable n_q_points : nat.

(** The body of the [i] loop: [local_rhs[i] += (...) * jxw]. *)
Definition add_shape_contribution (c : CellValues) (q : nat)
    (stress_tensor_plus stress_tensor_minus : SymmetricTensor)
    (phi_e phi jxw : Q) (local_rhs : list Q) (i : nat) : list Q :=
  let eps_u_i := symmetric_gradient c i q in
  let xi_phi_i := value c i q in
  let grad_xi_phi_i := gradient c i q in
  alter (fun r => r +
    (((1 - kappa) * phi_e * phi_e + kappa) * scalar_product stress_tensor_plus eps_u_i
     + scalar_product stress_tensor_minus eps_u_i
     + (1 - kappa) * phi * scalar_product stress_tensor_plus (strain_tensor c q) * xi_phi_i
     + gamma_c * (- (1) / e * (1 - phi) * xi_phi_i
                  + e * contract (grad_phi_values c q) grad_xi_phi_i))
    * jxw) i local_rhs.

(** The body of the [q] loop. *)
Definition add_quadrature_point (c : CellValues) (local_rhs : list Q) (q : nat)
  : list Q :=
  let '(stress_tensor_plus, stress_tensor_minus) :=
    get_stress_decomposition (strain_tensor c q) in
  let d_phi := old_phi_values c q - old_old_phi_values c q in
  let phi_e := old_phi_values c q + d_phi in
  let phi := phi_values c q in
  let jxw := JxW c q in
  fold_left
    (add_shape_contribution c q stress_tensor_plus stress_tensor_minus phi_e phi jxw)
    (seq 0 dofs_per_cell) local_rhs.

(** One pass of the cell loop body: [local_rhs = 0], then the [q] loop. *)
Definition assemble_cell (c : CellValues) : list Q :=
  fold_left (add_quadrature_point c) (seq 0 n_q_points) (replicate dofs_per_cell 0).

(** The cell loop.  Its body ends in [break], so only the first locally owned
    cell is visited.  The function is [void] and [local_rhs] is a local; the
    model returns its final value ([None] when no cell is locally owned). *)
Fixpoint assemble_rhs_vector (cells : list CellValues) : option (list Q) :=
  match cells with
  | [] => None
  | cell :: rest =>
      if is_locally_owned cell then Some (assemble_cell cell)
      else assemble_rhs_vector rest
  end.

(** What one quadrature point adds to [local_rhs[i]], as the source writes
    it. *)
Definition contribution (c : CellValues) (q i : nat) : Q :=
  let sp := fst (get_stress_decomposition (strain_tensor c q)) in
  let sm := snd (get_stress_decomposition (strain_tensor c q)) in
  let d_phi := old_phi_values c q - old_old_phi_values c q in
  let phi_e := old_phi_values c q + d_phi in
  let phi := phi_values c q in
  (((1 - kappa) * phi_e * phi_e + kappa)
     * scalar_product sp (symmetric_gradient c i q)
   + scalar_product sm (symmetric_gradient c i q)
   + (1 - kappa) * phi * scalar_product sp (strain_tensor c q) * value c i q
   + gamma_c * (- (1) / e * (1 - phi) * value c i q
                + e * contract (grad_phi_values c q) (gradient c i q)))
  * JxW c q.

(** The integrand of the claim, written with the degradation factor and the
    extrapolated phase field named. *)
Definition phi_extrapolated (c : CellValues) (q : nat) : Q :=
  old_phi_values c q + (old_phi_values c q - old_old_phi_values c q).

Definition degradation (phi_e : Q) : Q := (1 - kappa) * (phi_e * phi_e) + kappa.

Definition tensile_term (c : CellValues) (i q : nat) : Q :=
  scalar_product (fst (get_stress_decomposition (strain_tensor c q)))
                 (symmetric_gradient c i q).

Definition other_terms (c : CellValues) (i q : nat) : Q :=
  let sp := fst (get_stress_decomposition (strain_tensor c q)) in
  let sm := snd (get_stress_decomposition (strain_tensor c q)) in
  scalar_product sm (symmetric_gradient c i q)
  + (1 - kappa) * phi_values c q * scalar_product sp (strain_tensor c q) * value c i q
  + gamma_c * (- (1) / e * (1 - phi_values c q) * value c i q
               + e * contract (grad_phi_values c q) (gradient c i q)).

End Dim.

(** *** The positive part of the strain *)

(** A spectral decomposition: pairs of an eigenvalue and an eigenvector; the
    tensor it stands for is the sum of [lambda_k v_k (x) v_k]. *)
Definition Spectrum := list (Q * Tensor1).

Definition from_spectrum (eig : Spectrum) : SymmetricTensor :=
  fun i j => fold_right (fun p acc => fst p * outer (snd p) i j + acc) 0 eig.

(** Modelled from the spec: [constitutive_model::get_strain_tensor_plus]
    ([ConstitutiveModel.cc] is not among the sources).  The spec gives the
    positive part of the strain as the spectral clipping of its negative
    eigenvalues to zero. *)
Definition spectral_clip (eig : Spectrum) : SymmetricTensor :=
  from_spectrum (map (fun p => (std_max (fst p) 0, snd p)) eig).

(** The clipping on tensors that are already diagonal (their eigenvalues are
    the diagonal entries); used to run the decomposition on examples. *)
Definition clip_diagonal (t : SymmetricTensor) : SymmetricTensor :=
  diagonal (fun i => std_max (t i i) 0).

(** The unit vector along axis [k]. *)
Definition axis (k : nat) : Tensor1 := fun i => if (i =? k)%nat then 1 else 0.

End phase_field.

(** ** Namespace [EagleFrac]: the driver [PDSSolid] *)

Module EagleFrac.

(** Distributed vectors are read on one process, as the list of their
    entries by global index; an [IndexSet] is a finite set of indices. *)
Abbreviation Vector := (list Q).
Abbreviation IndexSet := (gset nat).

(** [vector = value]: every entry is set to the scalar. *)
Definition assign_scalar (v : Vector) (x : Q) : Vector := replicate (length v) x.

(** [a < b] on doubles, as a boolean. *)
Definition Qltb (a b : Q) : bool := if Qlt_le_dec a b then true else false.

(** [std::numeric_limits<double>::max()] *)
Definition numeric_limits_max : Q := inject_Z (2 ^ 1024 - 2 ^ 971).

(** The members of [InputData::PhaseFieldPressurizedData] that [run] reads.
    [get_time_step] and [pressure_function] are member functions of classes
    that are not among the sources. *)
Record PhaseFieldPressurizedData := {
  t_max : Q;
  get_time_step : Q -> Q;
  pressure_function : Q -> Q;
  newton_tolerance : Q;
  max_newton_iter : Z;
  minimum_time_step : Q;
  n_adaptive_steps : Z;
  initial_refinement_level : Z;
  phi_refinement_value : Q;
  displacement_boundary_labels : list Z;
  displacement_boundary_values : list Q;
  displacement_points : list (list Q);
  displacement_point_velocities : list Q
}.

(** The deal.II objects and calls the driver uses. *)
Class DealII := {
  Triangulation : Type;
  DoFHandler : Type;
  ConstraintMatrix : Type;
  Cell : Type;
  (** [triangulation.execute_coarsening_and_refinement()] *)
  execute_coarsening_and_refinement : Triangulation -> Triangulation;
  n_active_cells : Triangulation -> nat;
  (** the range [begin_active() .. end()] *)
  active_cells : Triangulation -> list Cell;
  cell_is_locally_owned : Cell -> bool;
  (** [dof_handler.distribute_dofs(fe)], for the phase-field element and for
      [pressure_fe] *)
  distribute_dofs : Triangulation -> DoFHandler;
  distribute_pressure_dofs : Triangulation -> DoFHandler;
  n_dofs : DoFHandler -> nat;
  (** [cell->get_dof_indices(local_dof_indices)] *)
  get_dof_indices : DoFHandler -> Cell -> list nat;
  (** [fe_values[phase_field].get_function_values(vector, phi_values)] after
      [reinit(cell)]: the values at the quadrature points of the cell *)
  get_function_values : DoFHandler -> Cell -> Vector -> list Q;
  (** what [SolutionTransfer::interpolate] writes for one vector stored by
      [prepare_for_coarsening_and_refinement]: from the numbering at the time
      of the snapshot onto the current one *)
  interpolate_onto : DoFHandler -> DoFHandler -> Vector -> Vector;
  (** [constraints.set_zero(vector)] *)
  set_zero : ConstraintMatrix -> Vector -> Vector
}.

(** The calls whose order is of interest, kept in a ghost log. *)
Inductive Call :=
| call_prepare_for_coarsening_and_refinement (snapshot : list Vector)
| call_execute_coarsening_and_refinement
| call_setup_dofs
| call_interpolate
| call_output_results (time_step_number : Z) (time : Q)
| call_execute_postprocessing (time_step_number : Z) (time : Q).

Section Driver.

Context {deal : DealII}.

(** The members of [PhaseField::PhaseFieldSolver] that the driver touches. *)
Record PhaseFieldSolver := {
  dof_handler : DoFHandler;
  solution : Vector;
  old_solution : Vector;
  old_old_solution : Vector;
  relevant_solution : Vector;
  residual : Vector;
  rhs_vector : Vector;
  active_set : IndexSet;
  all_constraints : ConstraintMatrix;
  use_old_time_step_phi : bool;
  decompose_stress : Z
}.

Definition set_solution (v : Vector) (s : PhaseFieldSolver) : PhaseFieldSolver :=
  {| dof_handler := dof_handler s; solution := v;
     old_solution := old_solution s; old_old_solution := old_old_solution s;
     relevant_solution := relevant_solution s; residual := residual s;
     rhs_vector := rhs_vector s; active_set := active_set s;
     all_constraints := all_constraints s;
     use_old_time_step_phi := use_old_time_step_phi s;
     decompose_stress := decompose_stress s |}.

Definition set_old_solution (v : Vector) (s : PhaseFieldSolver) : PhaseFieldSolver :=
  {| dof_handler := dof_handler s; solution := solution s;
     old_solution := v; old_old_solution := old_old_solution s;
     relevant_solution := relevant_solution s; residual := residual s;
     rhs_vector := rhs_vector s; active_set := active_set s;
     all_constraints := all_constraints s;
     use_old_time_step_phi := use_old_time_step_phi s;
     decompose_stress := decompose_stress s |}.

Definition set_old_old_solution (v : Vector) (s : PhaseFieldSolver) : PhaseFieldSolver :=
  {| dof_handler := dof_handler s; solution := solution s;
     old_solution := old_solution s; old_old_solution := v;
     relevant_solution := relevant_solution s; residual := residual s;
     rhs_vector := rhs_vector s; active_set := active_set s;
     all_constraints := all_constraints s;
     use_old_time_step_phi := use_old_time_step_phi s;
     decompose_stress := decompose_stress s |}.

Definition set_relevant_solution (v : Vector) (s : PhaseFieldSolver) : PhaseFieldSolver :=
  {| dof_handler := dof_handler s; solution := solution s;
     old_solution := old_solution s; old_old_solution := old_old_solution s;
     relevant_solution := v; residual := residual s;
     rhs_vector := rhs_vector s; active_set := active_set s;
     all_constraints := all_constraints s;
     use_old_time_step_phi := use_old_time_step_phi s;
     decompose_stress := decompose_stress s |}.

Definition set_residual (v : Vector) (s : PhaseFieldSolver) : PhaseFieldSolver :=
  {| dof_handler := dof_handler s; solution := solution s;
     old_solution := old_solution s; old_old_solution := old_old_solution s;
     relevant_solution := relevant_solution s; residual := v;
     rhs_vector := rhs_vector s; active_set := active_set s;
     all_constraints := all_constraints s;
     use_old_time_step_phi := use_old_time_step_phi s;
     decompose_stress := decompose_stress s |}.

Definition set_active_set (a : IndexSet) (s : PhaseFieldSolver) : PhaseFieldSolver :=
  {| dof_handler := dof_handler s; solution := solution s;
     old_solution := old_solution s; old_old_solution := old_old_solution s;
     relevant_solution := relevant_solution s; residual := residual s;
     rhs_vector := rhs_vector s; active_set := a;
     all_constraints := all_constraints s;
     use_old_time_step_phi := use_old_time_step_phi s;
     decompose_stress := decompose_stress s |}.

Definition set_use_old_time_step_phi (b : bool) (s : PhaseFieldSolver) : PhaseFieldSolver :=
  {| dof_handler := dof_handler s; solution := solution s;
     old_solution := old_solution s; old_old_solution := old_old_solution s;
     relevant_solution := relevant_solution s; residual := residual s;
     rhs_vector := rhs_vector s; active_set := active_set s;
     all_constraints := all_constraints s;
     use_old_time_step_phi := b;
     decompose_stress := decompose_stress s |}.

(** [PhaseFieldSolver<dim>::setup_dofs], as the header among the sources has
    it: the degrees of freedom are distributed on the current mesh and
    [solution], [old_solution], [old_old_solution] and [rhs_vector] are
    re-initialised (to zero vectors of the new size). *)
Definition PhaseFieldSolver_setup_dofs (triangulation : Triangulation)
    (s : PhaseFieldSolver) : PhaseFieldSolver :=
  let dh := distribute_dofs triangulation in
  {| dof_handler := dh;
     solution := replicate (n_dofs dh) 0;
     old_solution := replicate (n_dofs dh) 0;
     old_old_solution := replicate (n_dofs dh) 0;
     relevant_solution := relevant_solution s; residual := residual s;
     rhs_vector := replicate (n_dofs dh) 0;
     active_set := active_set s;
     all_constraints := all_constraints s;
     use_old_time_step_phi := use_old_time_step_phi s;
     decompose_stress := decompose_stress s |}.

(** Modelled from the spec: [PhaseFieldSolver::active_set_changed] (the
    header that declares it is not among the sources).  The spec describes
    its result as the flag "active set changed", which is false once the set
    is stable between two consecutive Newton iterations, the two index sets
    being compared by value; so, as its name says, the call answers [true]
    exactly when the current active set differs from the one passed in. *)
Definition active_set_changed (s : PhaseFieldSolver) (old_active_set : IndexSet)
  : bool :=
  negb (bool_decide (active_set s = old_active_set)).

(** The member functions of [PhaseFieldSolver], [WidthSolver] and [Mesher]
    whose bodies are not among the sources. *)
Class Collaborators := {
  WidthSolver : Type;
  update_old_solution : PhaseFieldSolver -> PhaseFieldSolver;
  (** [assemble_coupled_system(solution, pressure, time_steps,
      include_pressure, assemble_matrix)] *)
  assemble_coupled_system :
    PhaseFieldSolver -> Vector -> Vector -> Q * Q -> bool -> bool -> PhaseFieldSolver;
  compute_active_set : PhaseFieldSolver -> Vector -> PhaseFieldSolver;
  residual_norm : PhaseFieldSolver -> Q;
  (** [solve_coupled_newton_step(pressure, time_steps)]; the pair of
      iteration counts it returns is only printed *)
  solve_coupled_newton_step :
    PhaseFieldSolver -> Vector -> Q * Q -> PhaseFieldSolver;
  (** [impose_displacement(labels, components, values, points,
      point_components, point_values, constraint_point_phase_field)] *)
  impose_displacement :
    PhaseFieldSolver -> list Z -> list Q -> list (list Q) -> list Q -> PhaseFieldSolver;
  (** [Mesher::prepare_phase_field_refinement]: the answer, and the mesh with
      its refinement flags set *)
  prepare_phase_field_refinement :
    Triangulation -> PhaseFieldSolver -> Q -> Z -> bool * Triangulation;
  width_setup_dofs : Triangulation -> WidthSolver -> WidthSolver;
  width_assemble_system : WidthSolver -> Vector -> WidthSolver;
  width_solve_system : WidthSolver -> WidthSolver;
  (** [width_solver.relevant_solution = width_solver.solution] *)
  width_copy_solution : WidthSolver -> WidthSolver;
  (** [phase_field_solver.get_stresses(stresses)] *)
  get_stresses : PhaseFieldSolver -> list Vector -> list Vector
}.

Context {collab : Collaborators}.

(** The template parameter [dim] of [PDSSolid]. *)
Variable dim : nat.

(** The state of a [PDSSolid] object. *)
Record PDSSolid := {
  triangulation : Triangulation;
  pressure_dof_handler : DoFHandler;
  phase_field_solver : PhaseFieldSolver;
  width_solver : WidthSolver;
  pressure_owned_solution : Vector;
  pressure_relevant_solution : Vector;
  stresses : list Vector;
  calls : list Call
}.

Definition set_triangulation (t : Triangulation) (p : PDSSolid) : PDSSolid :=
  {| triangulation := t; pressure_dof_handler := pressure_dof_handler p;
     phase_field_solver := phase_field_solver p; width_solver := width_solver p;
     pressure_owned_solution := pressure_owned_solution p;
     pressure_relevant_solution := pressure_relevant_solution p;
     stresses := stresses p; calls := calls p |}.

Definition set_phase_field_solver (s : PhaseFieldSolver) (p : PDSSolid) : PDSSolid :=
  {| triangulation := triangulation p; pressure_dof_handler := pressure_dof_handler p;
     phase_field_solver := s; width_solver := width_solver p;
     pressure_owned_solution := pressure_owned_solution p;
     pressure_relevant_solution := pressure_relevant_solution p;
     stresses := stresses p; calls := calls p |}.

Definition set_width_solver (w : WidthSolver) (p : PDSSolid) : PDSSolid :=
  {| triangulation := triangulation p; pressure_dof_handler := pressure_dof_handler p;
     phase_field_solver := phase_field_solver p; width_solver := w;
     pressure_owned_solution := pressure_owned_solution p;
     pressure_relevant_solution := pressure_relevant_solution p;
     stresses := stresses p; calls := calls p |}.

Definition set_pressure_owned_solution (v : Vector) (p : PDSSolid) : PDSSolid :=
  {| triangulation := triangulation p; pressure_dof_handler := pressure_dof_handler p;
     phase_field_solver := phase_field_solver p; width_solver := width_solver p;
     pressure_owned_solution := v;
     pressure_relevant_solution := pressure_relevant_solution p;
     stresses := stresses p; calls := calls p |}.

Definition set_pressure_relevant_solution (v : Vector) (p : PDSSolid) : PDSSolid :=
  {| triangulation := triangulation p; pressure_dof_handler := pressure_dof_handler p;
     phase_field_solver := phase_field_solver p; width_solver := width_solver p;
     pressure_owned_solution := pressure_owned_solution p;
     pressure_relevant_solution := v;
     stresses := stresses p; calls := calls p |}.

Definition log_call (c : Call) (p : PDSSolid) : PDSSolid :=
  {| triangulation := triangulation p; pressure_dof_handler := pressure_dof_handler p;
     phase_field_solver := phase_field_solver p; width_solver := width_solver p;
     pressure_owned_solution := pressure_owned_solution p;
     pressure_relevant_solution := pressure_relevant_solution p;
     stresses := stresses p; calls := calls p ++ [c] |}.

Definition set_pressure_dof_handler (dh : DoFHandler) (p : PDSSolid) : PDSSolid :=
  {| triangulation := triangulation p; pressure_dof_handler := dh;
     phase_field_solver := phase_field_solver p; width_solver := width_solver p;
     pressure_owned_solution := pressure_owned_solution p;
     pressure_relevant_solution := pressure_relevant_solution p;
     stresses := stresses p; calls := calls p |}.

Definition set_stresses (st : list Vector) (p : PDSSolid) : PDSSolid :=
  {| triangulation := triangulation p; pressure_dof_handler := pressure_dof_handler p;
     phase_field_solver := phase_field_solver p; width_solver := width_solver p;
     pressure_owned_solution := pressure_owned_solution p;
     pressure_relevant_solution := pressure_relevant_solution p;
     stresses := st; calls := calls p |}.

(** The run-time parameters, [data]. *)
Variable data : PhaseFieldPressurizedData.

(** [PDSSolid<dim>::impose_displacement_on_solution] *)
Definition impose_displacement_on_solution (time : Q) (p : PDSSolid) : PDSSolid :=
  let n_displacement_conditions := length (displacement_boundary_labels data) in
  let displacement_values :=
    map (fun i => nth i (displacement_boundary_values data) 0)
        (seq 0 n_displacement_conditions) in
  let n_displacement_node_conditions := length (displacement_points data) in
  let displacement_point_values :=
    map (fun i => nth i (displacement_point_velocities data) 0 * time)
        (seq 0 n_displacement_node_conditions) in
  set_phase_field_solver
    (impose_displacement (phase_field_solver p)
       (displacement_boundary_labels data) displacement_values
       (displacement_points data) displacement_point_values) p.

(** [PDSSolid<dim>::setup_dofs] *)
Definition setup_dofs (p : PDSSolid) : PDSSolid :=
  let p := set_phase_field_solver
             (PhaseFieldSolver_setup_dofs (triangulation p) (phase_field_solver p)) p in
  let p := set_width_solver (width_setup_dofs (triangulation p) (width_solver p)) p in
  let p := set_pressure_dof_handler (distribute_pressure_dofs (triangulation p)) p in
  let p := set_pressure_relevant_solution
             (replicate (n_dofs (pressure_dof_handler p)) 0) p in
  let p := set_pressure_owned_solution
             (replicate (n_dofs (pressure_dof_handler p)) 0) p in
  let p := set_stresses
             (replicate dim (replicate (n_active_cells (triangulation p)) 0)) p in
  log_call call_setup_dofs p.

(** [parallel::distributed::SolutionTransfer]: what
    [prepare_for_coarsening_and_refinement] keeps, and [interpolate]. *)
Record SolutionTransfer := {
  transfer_dof_handler : DoFHandler;
  input_vectors : list Vector
}.

Definition prepare_for_coarsening_and_refinement (dh : DoFHandler)
    (all_in : list Vector) : SolutionTransfer :=
  {| transfer_dof_handler := dh; input_vectors := all_in |}.

Definition interpolate (st : SolutionTransfer) (current : DoFHandler) : list Vector :=
  map (interpolate_onto (transfer_dof_handler st) current) (input_vectors st).

(** [PDSSolid<dim>::exectute_adaptive_refinement] *)
Definition exectute_adaptive_refinement (p : PDSSolid) : PDSSolid :=
  let s := phase_field_solver p in
  let s := set_relevant_solution (solution s) s in
  let tmp := [relevant_solution s; old_solution s; old_old_solution s] in
  let solution_transfer :=
    prepare_for_coarsening_and_refinement (dof_handler s) tmp in
  let p := log_call (call_prepare_for_coarsening_and_refinement tmp)
             (set_phase_field_solver s p) in
  let p := log_call call_execute_coarsening_and_refinement
             (set_triangulation
                (execute_coarsening_and_refinement (triangulation p)) p) in
  let p := setup_dofs p in
  let s := phase_field_solver p in
  let tmp_owned1 := replicate (n_dofs (dof_handler s)) 0 in
  let tmp_owned2 := replicate (n_dofs (dof_handler s)) 0 in
  let all_out := interpolate solution_transfer (dof_handler s) in
  let s := set_solution (default (solution s) (all_out !! 0%nat)) s in
  let tmp_owned1 := default tmp_owned1 (all_out !! 1%nat) in
  let tmp_owned2 := default tmp_owned2 (all_out !! 2%nat) in
  let s := set_old_solution tmp_owned1 s in
  let s := set_old_old_solution tmp_owned2 s in
  log_call call_interpolate (set_phase_field_solver s p).

(** [QGauss<dim>(2)] has two points per direction. *)
Definition n_q_points : nat := 2 ^ dim.

(** The value [impose_pressure_values] chooses on a cell. *)
Definition cell_pressure (max_value : Q) (phi_values : list Q) : Q :=
  let mean_phi_value :=
    fold_left (fun m q => m + nth q phi_values 0) (seq 0 n_q_points) 0 in
  let mean_phi_value := mean_phi_value / inject_Z (Z.of_nat n_q_points) in
  if Qltb mean_phi_value (9 # 10) then max_value else 0.

(** The body of the cell loop of [impose_pressure_values];
    [local_dof_indices] has [dofs_per_cell] entries, all of which are
    written. *)
Definition impose_pressure_on_cell (max_value : Q) (s : PhaseFieldSolver)
    (pressure_dh : DoFHandler) (pressure_owned : Vector) (cell : Cell) : Vector :=
  if cell_is_locally_owned cell then
    let phi_values :=
      get_function_values (dof_handler s) cell (relevant_solution s) in
    let local_dof_indices := get_dof_indices pressure_dh cell in
    fold_left (fun v index => <[index := cell_pressure max_value phi_values]> v)
              local_dof_indices pressure_owned
  else pressure_owned.

(** [PDSSolid<dim>::impose_pressure_values] *)
Definition impose_pressure_values (max_value : Q) (p : PDSSolid) : PDSSolid :=
  let s := phase_field_solver p in
  let s := set_relevant_solution (solution s) s in
  let p := set_phase_field_solver s p in
  set_pressure_owned_solution
    (fold_left (impose_pressure_on_cell max_value s (pressure_dof_handler p))
               (active_cells (triangulation p)) (pressure_owned_solution p)) p.

(** *** [PDSSolid<dim>::run] *)

(** The locals of [run] that steer the time loop. *)
Record TimeState := {
  time : Q;
  time_step : Q;
  old_time_step : Q;
  time_step_number : Z
}.

(** The residual evaluation at the top of a Newton iteration. *)
Definition newton_evaluate (pressure : Vector) (time_steps : Q * Q)
    (s : PhaseFieldSolver) : PhaseFieldSolver :=
  let s := assemble_coupled_system s (solution s) pressure time_steps true false in
  let s := compute_active_set s (solution s) in
  set_residual (set_zero (all_constraints s) (residual s)) s.

(** The linear solve at the bottom of a Newton iteration. *)
Definition newton_solve (pressure : Vector) (time_steps : Q * Q)
    (s : PhaseFieldSolver) : PhaseFieldSolver :=
  let s := solve_coupled_newton_step s pressure time_steps in
  set_relevant_solution (solution s) s.

Inductive NewtonBody :=
| Break (s : PhaseFieldSolver)
| Continue (old_active_set : IndexSet) (s : PhaseFieldSolver).

(** The body of [while (newton_step < data.max_newton_iter)]. *)
Definition newton_body (pressure : Vector) (time_steps : Q * Q)
    (newton_step : Z) (old_active_set : IndexSet) (s : PhaseFieldSolver)
  : NewtonBody :=
  let error := numeric_limits_max in
  if (0 <? newton_step)%Z then
    let s := newton_evaluate pressure time_steps s in
    let error := residual_norm s in
    if active_set_changed s old_active_set && Qltb error (newton_tolerance data)
    then Break s
    else Continue (active_set s) (newton_solve pressure time_steps s)
  else Continue old_active_set (newton_solve pressure time_steps s).

(** The Newton loop; [fuel] bounds the number of passes.  The result is the
    final [newton_step], the final [old_active_set] and the solver. *)
Fixpoint newton_loop (pressure : Vector) (time_steps : Q * Q) (fuel : nat)
    (newton_step : Z) (old_active_set : IndexSet) (s : PhaseFieldSolver)
  : Z * IndexSet * PhaseFieldSolver :=
  match fuel with
  | O => (newton_step, old_active_set, s)
  | S fuel' =>
      if (newton_step <? max_newton_iter data)%Z then
        match newton_body pressure time_steps newton_step old_active_set s with
        | Break s' => (newton_step, old_active_set, s')
        | Continue old' s' =>
            newton_loop pressure time_steps fuel' (newton_step + 1) old' s'
        end
      else (newton_step, old_active_set, s)
  end.

(** From [int newton_step = 0] to the end of the loop: [max_newton_iter]
    passes are enough fuel. *)
Definition newton_iteration (pressure : Vector) (time_steps : Q * Q)
    (old_active_set : IndexSet) (s : PhaseFieldSolver)
  : Z * IndexSet * PhaseFieldSolver :=
  newton_loop pressure time_steps (Z.to_nat (max_newton_iter data)) 0
              old_active_set s.

(** The acceptance test of one evaluation, in the words of the spec: the
    active set is the one of the previous iteration and the residual norm is
    below the tolerance. *)
Definition accepted_at (old_active_set : IndexSet) (s : PhaseFieldSolver) : Prop :=
  active_set s = old_active_set /\ residual_norm s < newton_tolerance data.

(** What the break condition of [run] tests, with the flag as modelled: the
    active set differs from the one of the previous iteration and the
    residual norm is below the tolerance. *)
Definition break_test_at (old_active_set : IndexSet) (s : PhaseFieldSolver) : Prop :=
  active_set s <> old_active_set /\ residual_norm s < newton_tolerance data.

(** The two places control can be sent to, and what a block ends in. *)
Inductive Label := while_head | redo_time_step.

Inductive Control :=
| Goto (l : Label) (t : TimeState) (p : PDSSolid)
| Return (t : TimeState) (p : PDSSolid)
| Throw_NoConvergence (t : TimeState) (p : PDSSolid).

(** [const int max_refinement_level] *)
Definition max_refinement_level : Z :=
  (initial_refinement_level data + n_adaptive_steps data)%Z.

(** The pressure update that follows the label [redo_time_step]. *)
Definition update_pressure (t : TimeState) (p : PDSSolid) : PDSSolid :=
  let pressure_value := pressure_function data (time t) in
  let p := set_pressure_owned_solution
             (assign_scalar (pressure_owned_solution p) pressure_value) p in
  set_pressure_relevant_solution (pressure_owned_solution p) p.

(** The state in which the Newton loop of an attempt starts, and its result. *)
Definition attempt_start (t : TimeState) (p : PDSSolid) : PDSSolid :=
  impose_displacement_on_solution (time t) (update_pressure t p).

Definition attempt_newton (t : TimeState) (p : PDSSolid)
  : Z * IndexSet * PhaseFieldSolver :=
  let p := attempt_start t p in
  let time_steps := (time_step t, old_time_step t) in
  let old_active_set := active_set (phase_field_solver p) in
  newton_iteration (pressure_relevant_solution p) time_steps old_active_set
                   (phase_field_solver p).

(** The Newton loop of every attempt ends at the cap. *)
Definition never_converges : Prop :=
  forall t p, fst (fst (attempt_newton t p)) = max_newton_iter data.

(** "cut the time step if no convergence": the branch that does not throw. *)
Definition cut_time_step (t : TimeState) : TimeState :=
  let time1 := time t - time_step t in
  let time_step1 := time_step t / 10 in
  let time2 := time1 + time_step1 in
  {| time := time2; time_step := time_step1;
     old_time_step := old_time_step t;
     time_step_number := time_step_number t |}.

(** The end of an accepted step: width solve, output, postprocessing. *)
Definition accept_step (t : TimeState) (p : PDSSolid) : Control :=
  let s := phase_field_solver p in
  let s := set_relevant_solution (solution s) s in
  let w := width_assemble_system (width_solver p) (relevant_solution s) in
  let w := width_solve_system w in
  let w := width_copy_solution w in
  let p := set_width_solver w (set_phase_field_solver s p) in
  (* output_results *)
  let s := set_relevant_solution (solution s) s in
  let p := set_stresses (get_stresses s (stresses p)) (set_phase_field_solver s p) in
  let p := log_call (call_output_results (time_step_number t) (time t)) p in
  let p := log_call (call_execute_postprocessing (time_step_number t) (time t)) p in
  let s := set_use_old_time_step_phi true (phase_field_solver p) in
  let p := set_phase_field_solver s p in
  let t := {| time := time t; time_step := time_step t;
              old_time_step := time_step t;
              time_step_number := time_step_number t |} in
  if Qltb (time t) (t_max data) then Goto while_head t p else Return t p.

(** What follows the Newton loop: the step-size cut, the adaptive
    refinement, or the end of the step. *)
Definition after_newton (t : TimeState) (p : PDSSolid) (newton_step : Z)
  : Control :=
  let s := phase_field_solver p in
  if (newton_step =? max_newton_iter data)%Z then
    if Qltb (time_step t / 10) (minimum_time_step data) then
      Throw_NoConvergence t p
    else
      let s := set_solution (old_solution s) s in
      let s := set_use_old_time_step_phi true s in
      Goto redo_time_step (cut_time_step t) (set_phase_field_solver s p)
  else
    let '(refine, p) :=
      if (0 <? n_adaptive_steps data)%Z then
        let '(refine, tria) :=
          prepare_phase_field_refinement (triangulation p) s
            (phi_refinement_value data) max_refinement_level in
        (refine, set_triangulation tria p)
      else (false, p) in
    if refine then Goto redo_time_step t (exectute_adaptive_refinement p)
    else accept_step t p.

(** From the label [redo_time_step] to the next transfer of control. *)
Definition redo_block (t : TimeState) (p : PDSSolid) : Control :=
  let '(newton_step, _, s) := attempt_newton t p in
  after_newton t (set_phase_field_solver s (attempt_start t p)) newton_step.

(** From the test of [while (time < data.t_max)] to [redo_time_step]. *)
Definition while_block (t : TimeState) (p : PDSSolid) : Control :=
  if Qltb (time t) (t_max data) then
    let time_step' := get_time_step data (time t) in
    let t := {| time := time t + time_step'; time_step := time_step';
                old_time_step := old_time_step t;
                time_step_number := time_step_number t + 1 |} in
    Goto redo_time_step t
         (set_phase_field_solver (update_old_solution (phase_field_solver p)) p)
  else Return t p.

Definition block (l : Label) (t : TimeState) (p : PDSSolid) : Control :=
  match l with
  | while_head => while_block t p
  | redo_time_step => redo_block t p
  end.

(** The locals at [double time = 0; ...]. *)
Definition initial_time_state : TimeState :=
  {| time := 0; time_step := get_time_step data 0;
     old_time_step := get_time_step data 0; time_step_number := 0 |}.

(** The time loop, at most [fuel] blocks of it; [None] when the fuel runs
    out before the loop ends. *)
Fixpoint run_blocks (fuel : nat) (l : Label) (t : TimeState) (p : PDSSolid)
  : option Control :=
  match fuel with
  | O => None
  | S fuel' =>
      match block l t p with
      | Goto l' t' p' => run_blocks fuel' l' t' p'
      | done => Some done
      end
  end.

(** The locals with which the successive attempts (passes through
    [redo_time_step]) of the time loop start. *)
Fixpoint attempts (fuel : nat) (l : Label) (t : TimeState) (p : PDSSolid)
  : list TimeState :=
  match fuel with
  | O => []
  | S fuel' =>
      match l with redo_time_step => [t] | while_head => [] end
      ++ match block l t p with
         | Goto l' t' p' => attempts fuel' l' t' p'
         | _ => []
         end
  end.

(** [run], from the first test of the time loop on; the mesh, the degrees of
    freedom and the initial values set up before it are in [p]. *)
Definition run (fuel : nat) (p : PDSSolid) : option Control :=
  run_blocks fuel while_head initial_time_state p.

End Driver.

End EagleFrac.

(** ** The entry point *)

(** How a call that may end the process comes back: with a value, or not at
    all because [exit(status)] was called; either way with what it wrote to
    [std::cout]. *)
Inductive Outcome (A : Type) :=
| Returns (stdout : list string) (a : A)
| Exits (stdout : list string) (status : Z).
Arguments Returns {A} stdout a.
Arguments Exits {A} stdout status.

(** The [while (args.size())] loop of [parse_command_line]. *)
Fixpoint parse_arguments (args : list string) (arg_number : Z) (filename : string)
  : string :=
  match args with
  | [] => filename
  | front :: rest =>
      let filename := if (arg_number =? 1)%Z then front else filename in
      parse_arguments rest (arg_number + 1)%Z filename
  end.

(** [std::string parse_command_line(int argc, char *const *argv)] *)
Definition parse_command_line (argc : Z) (argv : list string) : Outcome string :=
  let filename := EmptyString in
  if (argc <? 2)%Z then Exits ["specify the file name"%string] 1
  else
    let args := map (fun i => nth i argv EmptyString)
                    (seq 1 (Z.to_nat argc - 1)) in
    Returns [] (parse_arguments args 1 filename).

(** What [main] does, in order. *)
Inductive MainEvent :=
| ev_MPI_InitFinalize
| ev_construct_PDSSolid (input_file_name : string)
| ev_run
| ev_report_exception.

(** [int main(int argc, char *argv[])]: the events and the exit status.
    [run_throws] tells whether [problem.run()] ends in an exception for the
    given input file. *)
Definition main (run_throws : string -> bool) (argc : Z) (argv : list string)
  : list MainEvent * Z :=
  match parse_command_line argc argv with
  | Exits _ status => ([ev_MPI_InitFinalize], status)
  | Returns _ input_file_name =>
      if run_throws input_file_name then
        ([ev_MPI_InitFinalize; ev_construct_PDSSolid input_file_name; ev_run;
          ev_report_exception], 1%Z)
      else
        ([ev_MPI_InitFinalize; ev_construct_PDSSolid input_file_name; ev_run], 0%Z)
  end.

(** ** A small instance to run the driver on

    A one-dimensional mesh of [n] cells with [n + 1] nodes: cell [c] has the
    nodes [c] and [c + 1], which are also its two quadrature points.
    Refinement doubles the number of cells.  The toy solver drives every
    entry of the solution to 1. *)

Module Toy.
Import EagleFrac.

(** Resizing a vector to the new number of nodes (new entries are zero). *)
Definition resize (n : nat) (v : Vector) : Vector :=
  take n (v ++ replicate n 0).

#[export] Instance toy_deal : DealII := {|
  Triangulation := nat;
  DoFHandler := nat;
  ConstraintMatrix := unit;
  Cell := nat;
  execute_coarsening_and_refinement := fun n => (2 * n)%nat;
  n_active_cells := fun n => n;
  active_cells := fun n => seq 0 n;
  cell_is_locally_owned := fun _ => true;
  distribute_dofs := fun n => S n;
  distribute_pressure_dofs := fun n => S n;
  n_dofs := fun d => d;
  get_dof_indices := fun _ c => [c; S c];
  get_function_values := fun _ c v => [nth c v 0; nth (S c) v 0];
  interpolate_onto := fun _ new v => resize new v;
  set_zero := fun _ v => v
|}.

(** The l1 norm stands in for the Euclidean one. *)
Definition toy_norm (v : Vector) : Q := fold_right (fun x acc => Qabs x + acc) 0 v.

(** The methods of the toy solver.  When [stuck], the residual stays at 1
    and the solve does nothing; when [grows], every evaluation adds an index
    to the active set. *)
Definition toy_methods (stuck grows : bool) : Collaborators := {|
  WidthSolver := unit;
  update_old_solution := fun s =>
    set_old_solution (solution s) (set_old_old_solution (old_solution s) s);
  assemble_coupled_system := fun s sol _ _ _ _ =>
    set_residual (map (fun x => if stuck then 1 else x - 1) sol) s;
  compute_active_set := fun s _ =>
    if grows then set_active_set (active_set s ∪ {[size (active_set s)]}) s
    else s;
  residual_norm := fun s => toy_norm (residual s);
  solve_coupled_newton_step := fun s _ _ =>
    if stuck then s else set_solution (map (fun _ => 1) (solution s)) s;
  impose_displacement := fun s _ _ _ _ => s;
  prepare_phase_field_refinement := fun tria _ _ max_level =>
    ((Z.of_nat tria <? max_level)%Z, tria);
  width_setup_dofs := fun _ w => w;
  width_assemble_system := fun w _ => w;
  width_solve_system := fun w => w;
  width_copy_solution := fun w => w;
  get_stresses := fun _ st => st
|}.

(** The two solvers the examples run: one that is stuck with a fixed active
    set, and one that reaches a zero residual while its active set grows at
    every evaluation. *)
#[export] Instance toy_collab (stuck : bool) : Collaborators :=
  toy_methods stuck (negb stuck).


(** Parameters: steps of 10 up to time 10, at most three Newton iterations,
    tolerance 1e-5, minimum step 1/2, pressure 5 at all times. *)
Definition toy_data (adaptive_steps : Z) : PhaseFieldPressurizedData := {|
  t_max := 10;
  get_time_step := fun _ => 10;
  pressure_function := fun _ => 5;
  newton_tolerance := 1 # 100000;
  max_newton_iter := 3;
  minimum_time_step := 1 # 2;
  n_adaptive_steps := adaptive_steps;
  initial_refinement_level := 0;
  phi_refinement_value := 1 # 2;
  displacement_boundary_labels := [];
  displacement_boundary_values := [];
  displacement_points := [];
  displacement_point_velocities := []
|}.

(** One intact cell (phase field 1 at both nodes), zero solution history. *)
Definition toy_solver : PhaseFieldSolver (deal := toy_deal) := {|
  dof_handler := 2%nat;
  solution := [1; 1];
  old_solution := [0; 0];
  old_old_solution := [0; 0];
  relevant_solution := [1; 1];
  residual := [0; 0];
  rhs_vector := [0; 0];
  active_set := ∅;
  all_constraints := tt;
  use_old_time_step_phi := false;
  decompose_stress := 2
|}.

Definition toy_solid (stuck : bool)
  : PDSSolid (deal := toy_deal) (collab := toy_collab stuck) :=
  @Build_PDSSolid toy_deal (toy_collab stuck)
    1%nat       (* triangulation *)
    2%nat       (* pressure_dof_handler *)
    toy_solver  (* phase_field_solver *)
    tt          (* width_solver *)
    [0; 0]      (* pressure_owned_solution *)
    [0; 0]      (* pressure_relevant_solution *)
    []          (* stresses *)
    [].         (* calls *)


(** The locals of [run] in the first attempt of the first step. *)
Definition toy_first_attempt : TimeState :=
  {| time := 10; time_step := 10; old_time_step := 10; time_step_number := 1 |}.

End Toy.

(** ** Example strains *)

(** The strain with a single unit entry, at position (2, 2). *)
Definition strain_zz : phase_field.SymmetricTensor :=
  phase_field.diagonal (phase_field.axis 2).

(** The 2 x 2 strain diag(1, 2) and its spectrum. *)
Definition strain_stretch : phase_field.SymmetricTensor :=
  phase_field.diagonal (fun i => if (i =? 0)%nat then 1 else 2).

Definition spectrum_stretch : phase_field.Spectrum :=
  [(1, phase_field.axis 0); (2, phase_field.axis 1)].

(** ** Example cells for the residual assembly *)

(** A cell with constant data: strain diag(1, 2), phase field 1 now, 1/2 and
    1/4 at the two previous steps. *)
Definition example_cell (owned : bool) : phase_field.CellValues := {|
  phase_field.is_locally_owned := owned;
  phase_field.JxW := fun _ => 1 # 4;
  phase_field.strain_tensor := fun _ => strain_stretch;
  phase_field.phi_values := fun _ => 1;
  phase_field.old_phi_values := fun _ => 1 # 2;
  phase_field.old_old_phi_values := fun _ => 1 # 4;
  phase_field.grad_phi_values := fun _ => phase_field.axis 0;
  phase_field.symmetric_gradient := fun _ _ => phase_field.unit_symmetric_tensor;
  phase_field.value := fun _ _ => 1;
  phase_field.gradient := fun _ _ => phase_field.axis 1
|}.

Definition example_cells : list phase_field.CellValues :=
  [example_cell false; example_cell true; example_cell true].

(** ** The pressure field the spec describes *)

Section PressureClaim.
Import EagleFrac.
Context {deal : DealII} {collab : Collaborators}.

(** Every active cell holds, at all of its pressure degrees of freedom, the
    full [value] when its mean phase field is below the threshold and zero
    otherwise. *)
Definition pressure_follows_crack (dim : nat) (value : Q) (p : PDSSolid) : Prop :=
  forall cell, cell ∈ active_cells (triangulation p) ->
  forall index, index ∈ get_dof_indices (pressure_dof_handler p) cell ->
    pressure_owned_solution p !! index
    = Some (cell_pressure dim value
              (get_function_values (dof_handler (phase_field_solver p)) cell
                 (solution (phase_field_solver p)))).

End PressureClaim.

(** ** [std::string] and [size_t]

    A [std::string] is read as the list of its characters, a [size_t] as an
    integer modulo 2^64. *)

Definition size_t_modulus : Z := 2 ^ 64.

(** [std::string::npos] *)
Definition npos : Z := size_t_modulus - 1.

(** The index of the last occurrence of a character. *)
Fixpoint last_index_of (c : ascii) (s : list ascii) : option nat :=
  match s with
  | [] => None
  | x :: rest =>
      match last_index_of c rest with
      | Some k => Some (S k)
      | None => if Ascii.eqb x c then Some O else None
      end
  end.

(** [s.find_last_of(c)] and [s.rfind(c)] for a one-character argument. *)
Definition find_last_of (s : list ascii) (c : ascii) : Z :=
  match last_index_of c s with
  | Some k => Z.of_nat k
  | None => npos
  end.

Definition rfind (s : list ascii) (c : ascii) : Z := find_last_of s c.

(** [s.substr(pos, count)]: [None] stands for [std::out_of_range], thrown
    when [pos > size()]. *)
Definition substr (s : list ascii) (pos count : Z) : option (list ascii) :=
  let size := Z.of_nat (length s) in
  if (size <? pos)%Z then None
  else Some (take (Z.to_nat (Z.min count (size - pos))) (drop (Z.to_nat pos) s)).

(** ** [PDSSolid<dim>::prepare_output_directories] *)

(** The first three statements: the case name computed from the name of the
    input file. *)
Definition compute_case_name (input_file_name : list ascii)
  : option (list ascii) :=
  let path_index := find_last_of input_file_name "/"%char in
  match substr input_file_name path_index npos with
  | None => None
  | Some tail =>
      let extension_index := rfind tail "."%char in
      substr input_file_name
             ((path_index + 1) mod size_t_modulus)%Z
             ((extension_index - 1) mod size_t_modulus)%Z
  end.

(** The calls into [boost::filesystem]. *)
Inductive FsCall :=
| fs_create_directory (path : list ascii)
| fs_remove_all (path : list ascii).

Inductive Prepared :=
| prepared (case_name : list ascii) (fs : list FsCall)
| throws_out_of_range.

(** The whole function on the process of rank [this_mpi_process];
    [is_directory] answers for the file system as it is at the call. *)
Definition prepare_output_directories (input_file_name : list ascii)
    (this_mpi_process : Z) (is_directory : list ascii -> bool) : Prepared :=
  match compute_case_name input_file_name with
  | None => throws_out_of_range
  | Some case_name =>
      let output_directory_path :=
        list_ascii_of_string "./" ++ case_name in
      if (this_mpi_process =? 0)%Z then
        let first :=
          if negb (is_directory output_directory_path)
          then [fs_create_directory output_directory_path]
          else [fs_remove_all output_directory_path;
                fs_create_directory output_directory_path] in
        let vtu_path :=
          list_ascii_of_string "./" ++ case_name ++ list_ascii_of_string "/vtu" in
        prepared case_name (first ++ [fs_create_directory vtu_path])
      else prepared case_name []
  end.

(** ** [ToughnessMap<dim>] *)

Record ToughnessMap := {
  xlim : Q * Q;
  ylim : Q * Q;
  inside_value : Q;
  beyond_value : Q
}.

(** [ToughnessMap<dim>::value(p, component)]; [p] gives the coordinates of
    the point. *)
Definition ToughnessMap_value (m : ToughnessMap) (p : nat -> Q) (component : Z) : Q :=
  if (component =? 0)%Z then
    if Qle_bool (fst (xlim m)) (p 0%nat) && Qle_bool (p 0%nat) (snd (xlim m))
       && Qle_bool (fst (ylim m)) (p 1%nat) && Qle_bool (p 1%nat) (snd (ylim m))
    then inside_value m
    else beyond_value m
  else 0.

(** ** [PDSSolid<dim>::execute_postprocessing] *)

(** The alternatives of the [boost::variant] arguments that the function
    reads. *)
Inductive Variant :=
| variant_int (z : Z)
| variant_double (q : Q).

(** The lines appended to the output files.  A position of the
    crack-opening measurement is [None] when it is not a number. *)
Inductive PostWrite :=
| write_boundary_load (boundary_id : Z) (time load_x load_y : Q)
| write_cod (time_step_number : Z) (rows : list (option Q * Q)).

(** How the function ends: normally; with [boost::bad_get]; or after reading
    past the end of an argument list (undefined behaviour). *)
Inductive PostResult :=
| post_done (writes : list PostWrite)
| post_bad_get
| post_undefined.

(** [unsigned int n = i;] *)
Definition to_unsigned (z : Z) : Z := (z mod 2 ^ 32)%Z.

(** The positions of the lines of the crack-opening measurement,
    [lines[k] = start + (end-start)/(n_lines-1)*k], for a number of lines
    other than 1. *)
Definition cod_lines (start end_ : Q) (n_lines : Z) : list Q :=
  map (fun k => start
                + (end_ - start) / inject_Z (to_unsigned (n_lines - 1))
                  * inject_Z (Z.of_nat k))
      (seq 0 (Z.to_nat n_lines)).

Section Postprocessing.

(** [Postprocessing::compute_boundary_load] and [Postprocessing::compute_cod],
    which are not among the sources, as evaluated on the current solution. *)
Variable compute_boundary_load : Z -> phase_field.Tensor1.
Variable compute_cod : list (option Q) -> Z -> list Q.

(** The vector [lines].  With a single line, [(end-start)/(n_lines-1)] is a
    division by zero, infinite or not a number, and its product with
    [k = 0] is not a number: the only position is [None]. *)
Definition cod_positions (start end_ : Q) (n_lines : Z) : list (option Q) :=
  if (n_lines =? 1)%Z then [None]
  else map Some (cod_lines start end_ n_lines).

(** The process rank, [this_mpi_process(mpi_communicator)]. *)
Variable this_mpi_process : Z.

(** The body of the loop for one function name and its arguments. *)
Definition postprocess_one (name : string) (args : list Variant)
    (time_step_number : Z) (time : Q) : PostResult :=
  if String.eqb name "boundary_load" then
    match args !! 0%nat with
    | None => post_undefined
    | Some (variant_double _) => post_bad_get
    | Some (variant_int boundary_id) =>
        let load := compute_boundary_load boundary_id in
        if (this_mpi_process =? 0)%Z then
          post_done [write_boundary_load boundary_id time (load 0%nat) (load 1%nat)]
        else post_done []
    end
  else if String.eqb name "COD" then
    match args !! 0%nat, args !! 1%nat, args !! 2%nat, args !! 3%nat with
    | Some (variant_double start), Some (variant_double end_),
      Some (variant_int n), Some (variant_int direction) =>
        let n_lines := to_unsigned n in
        let direction := to_unsigned direction in
        let lines := cod_positions start end_ n_lines in
        let cod_values := compute_cod lines direction in
        if (this_mpi_process =? 0)%Z then
          post_done
            [write_cod time_step_number
               (map (fun k => (nth k lines None, nth k cod_values 0))
                    (seq 0 (Z.to_nat n_lines)))]
        else post_done []
    | None, _, _, _ => post_undefined
    | Some (variant_int _), _, _, _ => post_bad_get
    | Some (variant_double _), None, _, _ => post_undefined
    | Some (variant_double _), Some (variant_int _), _, _ => post_bad_get
    | Some (variant_double _), Some (variant_double _), None, _ => post_undefined
    | Some (variant_double _), Some (variant_double _),
      Some (variant_double _), _ => post_bad_get
    | Some (variant_double _), Some (variant_double _),
      Some (variant_int _), None => post_undefined
    | Some (variant_double _), Some (variant_double _),
      Some (variant_int _), Some (variant_double _) => post_bad_get
    end
  else post_done [].

(** The loop over [data.postprocessing_function_names]; the writes of the
    functions already handled stay in the files when a later one throws. *)
Fixpoint execute_postprocessing (names : list string) (args : list (list Variant))
    (time_step_number : Z) (time : Q) : list PostWrite * PostResult :=
  match names with
  | [] => ([], post_done [])
  | name :: names' =>
      match postprocess_one name (default [] (head args)) time_step_number time with
      | post_done writes =>
          let '(later, result) :=
            execute_postprocessing names' (tail args) time_step_number time in
          (writes ++ later, result)
      | failure => ([], failure)
      end
  end.

End Postprocessing.

(** ** The step numbers of the outputs in the call log *)

Fixpoint output_step_numbers (cs : list EagleFrac.Call) : list Z :=
  match cs with
  | [] => []
  | EagleFrac.call_output_results n _ :: rest => n :: output_step_numbers rest
  | _ :: rest => output_step_numbers rest
  end.

(** The step numbers 1, ..., n. *)
Definition first_steps (n : Z) : list Z := map Z.of_nat (seq 1 (Z.to_nat n)).

(** ** Variations of the parameters *)

Definition with_cap (cap : Z) (d : EagleFrac.PhaseFieldPressurizedData)
  : EagleFrac.PhaseFieldPressurizedData := {|
  EagleFrac.t_max := EagleFrac.t_max d;
  EagleFrac.get_time_step := EagleFrac.get_time_step d;
  EagleFrac.pressure_function := EagleFrac.pressure_function d;
  EagleFrac.newton_tolerance := EagleFrac.newton_tolerance d;
  EagleFrac.max_newton_iter := cap;
  EagleFrac.minimum_time_step := EagleFrac.minimum_time_step d;
  EagleFrac.n_adaptive_steps := EagleFrac.n_adaptive_steps d;
  EagleFrac.initial_refinement_level := EagleFrac.initial_refinement_level d;
  EagleFrac.phi_refinement_value := EagleFrac.phi_refinement_value d;
  EagleFrac.displacement_boundary_labels := EagleFrac.displacement_boundary_labels d;
  EagleFrac.displacement_boundary_values := EagleFrac.displacement_boundary_values d;
  EagleFrac.displacement_points := EagleFrac.displacement_points d;
  EagleFrac.displacement_point_velocities := EagleFrac.displacement_point_velocities d
|}.

Definition with_minimum (minimum : Q) (d : EagleFrac.PhaseFieldPressurizedData)
  : EagleFrac.PhaseFieldPressurizedData := {|
  EagleFrac.t_max := EagleFrac.t_max d;
  EagleFrac.get_time_step := EagleFrac.get_time_step d;
  EagleFrac.pressure_function := EagleFrac.pressure_function d;
  EagleFrac.newton_tolerance := EagleFrac.newton_tolerance d;
  EagleFrac.max_newton_iter := EagleFrac.max_newton_iter d;
  EagleFrac.minimum_time_step := minimum;
  EagleFrac.n_adaptive_steps := EagleFrac.n_adaptive_steps d;
  EagleFrac.initial_refinement_level := EagleFrac.initial_refinement_level d;
  EagleFrac.phi_refinement_value := EagleFrac.phi_refinement_value d;
  EagleFrac.displacement_boundary_labels := EagleFrac.displacement_boundary_labels d;
  EagleFrac.displacement_boundary_values := EagleFrac.displacement_boundary_values d;
  EagleFrac.displacement_points := EagleFrac.displacement_points d;
  EagleFrac.displacement_point_velocities := EagleFrac.displacement_point_velocities d
|}.

Section OutputNumbering.
Import EagleFrac.
Context {deal : DealII} {collab : Collaborators}.

(** At the head of the time loop the outputs written so far are those of the
    steps 1, ..., n, where n is the step number; inside a step (at the redo
    label) they are those of the steps before it. *)
Definition outputs_numbered (l : Label) (t : TimeState) (p : PDSSolid) : Prop :=
  match l with
  | while_head =>
      (0 <= time_step_number t)%Z
      /\ output_step_numbers (calls p) = first_steps (time_step_number t)
  | redo_time_step =>
      (1 <= time_step_number t)%Z
      /\ output_step_numbers (calls p) = first_steps (time_step_number t - 1)
  end.

End OutputNumbering.

(** * Properties *)

(** ** Sums and maxima *)

Lemma sumQ_ext n f g :
  (forall i, (i < n)%nat -> f i == g i) -> sumQ n f == sumQ n g.
Proof.
  induction n as [|n IH]; intros H; simpl.
  - reflexivity.
  - rewrite IH by (intros; apply H; lia). rewrite (H n) by lia. reflexivity.
Qed.

Lemma sumQ_zero n f : (forall i, (i < n)%nat -> f i == 0) -> sumQ n f == 0.
Proof.
  induction n as [|n IH]; intros H; simpl.
  - reflexivity.
  - rewrite IH by (intros; apply H; lia). rewrite (H n) by lia. ring.
Qed.

Lemma sumQ_nonneg n f : (forall i, (i < n)%nat -> 0 <= f i) -> 0 <= sumQ n f.
Proof.
  induction n as [|n IH]; intros H; simpl.
  - apply Qle_refl.
  - assert (0 <= sumQ n f) by (apply IH; intros; apply H; lia).
    assert (0 <= f n) by (apply H; lia). lra.
Qed.

Lemma sumQ_plus n f g : sumQ n (fun i => f i + g i) == sumQ n f + sumQ n g.
Proof. induction n as [|n IH]; simpl; [ring | rewrite IH; ring]. Qed.

Lemma sumQ_scale n c f : sumQ n (fun i => c * f i) == c * sumQ n f.
Proof. induction n as [|n IH]; simpl; [ring | rewrite IH; ring]. Qed.

Lemma std_max_zero_of_nonneg a : 0 <= a -> std_max a 0 == a.
Proof. unfold std_max. destruct (Qlt_le_dec a 0); intros; lra. Qed.

Lemma Qltb_true a b : EagleFrac.Qltb a b = true <-> a < b.
Proof.
  unfold EagleFrac.Qltb. destruct (Qlt_le_dec a b) as [H|H]; split; intros; try easy.
  exfalso. apply (Qlt_irrefl a). eapply Qlt_le_trans; eauto.
Qed.

Lemma Qltb_false a b : EagleFrac.Qltb a b = false <-> b <= a.
Proof.
  unfold EagleFrac.Qltb. destruct (Qlt_le_dec a b) as [H|H]; split; intros; try easy.
  exfalso. apply (Qlt_irrefl a). eapply Qlt_le_trans; eauto.
Qed.

(** ** The stress decomposition *)

Section StressDecomposition.
Import phase_field.

Variable dim : nat.
Variable get_strain_tensor_plus : SymmetricTensor -> SymmetricTensor.

Local Abbreviation decomposition :=
  (get_stress_decomposition dim get_strain_tensor_plus).

(** What the two outputs add up to, entry by entry, in any dimension. *)
Lemma stress_sum_entry eps i j :
  tensor_add (fst (decomposition eps)) (snd (decomposition eps)) i j
  == 2 * mu * eps i j
     + (if (i =? j)%nat && (i <? 2)%nat then lambda * trace dim eps else 0).
Proof.
  unfold get_stress_decomposition, tensor_add, add_at_diag, tensor_scale,
    tensor_sub; simpl.
  destruct i as [|[|i]], j as [|[|j]]; simpl; try ring.
  change (S (S i) <? 2)%nat with false. rewrite andb_false_r. ring.
Qed.

Lemma stress_minus_entry eps i j :
  snd (decomposition eps) i j
  == 2 * mu * (eps i j - get_strain_tensor_plus eps i j)
     + (if (i =? j)%nat && (i <? 2)%nat
        then lambda * (trace dim eps - std_max (trace dim eps) 0) else 0).
Proof.
  unfold get_stress_decomposition, add_at_diag, tensor_scale, tensor_sub; simpl.
  destruct i as [|[|i]], j as [|[|j]]; simpl; try ring.
  change (S (S i) <? 2)%nat with false. rewrite andb_false_r. ring.
Qed.

Lemma stress_plus_entry eps i j :
  fst (decomposition eps) i j
  == 2 * mu * get_strain_tensor_plus eps i j
     + (if (i =? j)%nat && (i <? 2)%nat
        then lambda * std_max (trace dim eps) 0 else 0).
Proof.
  unfold get_stress_decomposition, add_at_diag, tensor_scale, tensor_sub; simpl.
  destruct i as [|[|i]], j as [|[|j]]; simpl; try ring.
  change (S (S i) <? 2)%nat with false. rewrite andb_false_r. ring.
Qed.

(** A spectrum without negative eigenvalue has non-negative diagonal
    entries, hence a non-negative trace, and clipping leaves it as it is. *)
Lemma from_spectrum_diag_nonneg eig i :
  Forall (fun p => 0 <= fst p) eig -> 0 <= from_spectrum eig i i.
Proof.
  unfold from_spectrum, outer. induction 1 as [|[l v] eig Hl _ IH]; simpl in *.
  - apply Qle_refl.
  - assert (0 <= v i * v i) by nra. nra.
Qed.

Lemma spectral_clip_nonneg eig i j :
  Forall (fun p => 0 <= fst p) eig -> spectral_clip eig i j == from_spectrum eig i j.
Proof.
  unfold spectral_clip, from_spectrum.
  induction 1 as [|[l v] eig Hl _ IH]; simpl in *.
  - reflexivity.
  - rewrite IH, (std_max_zero_of_nonneg l Hl). reflexivity.
Qed.

Lemma trace_nonneg_of_spectrum eps eig :
  tensor_eq dim eps (from_spectrum eig) ->
  Forall (fun p => 0 <= fst p) eig -> 0 <= trace dim eps.
Proof.
  intros Heq Hpos. unfold trace.
  apply sumQ_nonneg. intros i Hi. rewrite (Heq i i Hi Hi).
  now apply from_spectrum_diag_nonneg.
Qed.

Lemma trace_zero : trace dim tensor_zero == 0.
Proof. unfold trace. apply sumQ_zero. intros; reflexivity. Qed.

End StressDecomposition.

(** C4, the code at the failing input: in the instantiation with dim = 3, for
    the strain whose only non-zero entry is a 1 at (2, 2), the two outputs
    add up to 2 mu = 2000 at (2, 2), whatever the helper returns, where the
    isotropic stress is 2 mu + lambda = 1002000; at (0, 0) and (1, 1) the
    sum does carry the lambda term. *)
Theorem stress_sum_3d_misses_lambda_at_zz :
  (forall get_strain_tensor_plus,
     phase_field.tensor_add
       (fst (phase_field.get_stress_decomposition 3 get_strain_tensor_plus strain_zz))
       (snd (phase_field.get_stress_decomposition 3 get_strain_tensor_plus strain_zz))
       2%nat 2%nat
     == 2000)
  /\ phase_field.isotropic_stress 3 strain_zz 2%nat 2%nat == 1002000
  /\ (forall get_strain_tensor_plus,
        phase_field.tensor_add
          (fst (phase_field.get_stress_decomposition 3 get_strain_tensor_plus strain_zz))
          (snd (phase_field.get_stress_decomposition 3 get_strain_tensor_plus strain_zz))
          0%nat 0%nat
        == phase_field.isotropic_stress 3 strain_zz 0%nat 0%nat).
Proof.
  split; [|split].
  - intros plus. rewrite stress_sum_entry. vm_compute. reflexivity.
  - vm_compute. reflexivity.
  - intros plus. rewrite stress_sum_entry. vm_compute. reflexivity.
Qed.

(** X20: for every 2 x 2 strain tensor, whatever the positive part returned
    by the helper, the two outputs of the stress decomposition add up to the
    isotropic linear-elastic stress 2 mu eps + lambda tr(eps) I; in general
    the sum is 2 mu eps plus lambda tr(eps) on the entries (0, 0) and
    (1, 1). *)
Theorem stress_sum_2d
    (get_strain_tensor_plus : phase_field.SymmetricTensor -> phase_field.SymmetricTensor)
    (eps : phase_field.SymmetricTensor) :
  phase_field.tensor_eq 2
    (phase_field.tensor_add
       (fst (phase_field.get_stress_decomposition 2 get_strain_tensor_plus eps))
       (snd (phase_field.get_stress_decomposition 2 get_strain_tensor_plus eps)))
    (phase_field.isotropic_stress 2 eps)
  /\ forall dim i j,
       phase_field.tensor_add
         (fst (phase_field.get_stress_decomposition dim get_strain_tensor_plus eps))
         (snd (phase_field.get_stress_decomposition dim get_strain_tensor_plus eps)) i j
       == 2 * phase_field.mu * eps i j
          + (if (i =? j)%nat && (i <? 2)%nat
             then phase_field.lambda * phase_field.trace dim eps else 0).
Proof.
  split.
  - intros i j Hi Hj. rewrite stress_sum_entry.
    unfold phase_field.isotropic_stress, phase_field.tensor_add,
      phase_field.tensor_scale, phase_field.unit_symmetric_tensor.
    destruct i as [|[|i]], j as [|[|j]]; try lia; simpl; ring.
  - intros. apply stress_sum_entry.
Qed.

(** C9: when the strain has a spectral decomposition without negative
    eigenvalue and the helper returns its spectral clipping, the compression
    part of the stress decomposition is the zero tensor; for the zero strain
    (empty spectrum) both parts are the zero tensor. *)
Theorem stress_minus_zero_of_nonnegative_spectrum (dim : nat)
    (get_strain_tensor_plus : phase_field.SymmetricTensor -> phase_field.SymmetricTensor)
    (eps : phase_field.SymmetricTensor) (eig : phase_field.Spectrum) :
  phase_field.tensor_eq dim eps (phase_field.from_spectrum eig) ->
  Forall (fun p => 0 <= fst p) eig ->
  phase_field.tensor_eq dim (get_strain_tensor_plus eps) (phase_field.spectral_clip eig) ->
  phase_field.tensor_eq dim
    (snd (phase_field.get_stress_decomposition dim get_strain_tensor_plus eps))
    phase_field.tensor_zero
  /\ (phase_field.tensor_eq dim (get_strain_tensor_plus phase_field.tensor_zero)
                            (phase_field.spectral_clip []) ->
      phase_field.tensor_eq dim
        (fst (phase_field.get_stress_decomposition dim get_strain_tensor_plus
                phase_field.tensor_zero))
        phase_field.tensor_zero
      /\ phase_field.tensor_eq dim
           (snd (phase_field.get_stress_decomposition dim get_strain_tensor_plus
                   phase_field.tensor_zero))
           phase_field.tensor_zero).
Proof.
  intros Heps Hpos Hplus. split.
  - intros i j Hi Hj. rewrite stress_minus_entry.
    pose proof (Hplus i j Hi Hj) as H1.
    rewrite (spectral_clip_nonneg eig i j Hpos), <- (Heps i j Hi Hj) in H1.
    pose proof (std_max_zero_of_nonneg _
                  (trace_nonneg_of_spectrum dim eps eig Heps Hpos)) as H2.
    unfold phase_field.tensor_zero, phase_field.mu, phase_field.lambda.
    destruct ((i =? j)%nat && (i <? 2)%nat); lra.
  - intros Hzero.
    assert (Hmax : std_max (phase_field.trace dim phase_field.tensor_zero) 0 == 0).
    { rewrite std_max_zero_of_nonneg; rewrite trace_zero; [reflexivity | apply Qle_refl]. }
    pose proof (trace_zero dim) as Htr.
    split; intros i j Hi Hj; pose proof (Hzero i j Hi Hj) as H1;
      [rewrite stress_plus_entry | rewrite stress_minus_entry];
      unfold phase_field.spectral_clip, phase_field.from_spectrum in H1;
      simpl in H1;
      unfold phase_field.tensor_zero, phase_field.mu, phase_field.lambda in *;
      destruct ((i =? j)%nat && (i <? 2)%nat); lra.
Qed.

Ltac tensor_eq_by_cases :=
  let i := fresh "i" in let j := fresh "j" in
  intros i j ? ?;
  destruct i as [|[|[|i]]]; destruct j as [|[|[|j]]]; try lia;
  vm_compute; reflexivity.

Lemma stress_minus_zero_of_nonnegative_spectrum_witness :
  phase_field.tensor_eq 2
    (snd (phase_field.get_stress_decomposition 2 phase_field.clip_diagonal
            strain_stretch))
    phase_field.tensor_zero
  /\ phase_field.tensor_eq 2
       (fst (phase_field.get_stress_decomposition 2 phase_field.clip_diagonal
               phase_field.tensor_zero))
       phase_field.tensor_zero.
Proof.
  destruct (stress_minus_zero_of_nonnegative_spectrum 2 phase_field.clip_diagonal
              strain_stretch spectrum_stretch) as [Hminus Hzero].
  - tensor_eq_by_cases.
  - repeat constructor; simpl; lra.
  - tensor_eq_by_cases.
  - split; [exact Hminus | apply Hzero; tensor_eq_by_cases].
Defined.

(** ** The residual assembly *)

Section Assembly.
Import phase_field.

Variable dim : nat.
Variable get_strain_tensor_plus : SymmetricTensor -> SymmetricTensor.
Variable dofs_per_cell : nat.
Variable n_q_points : nat.

Local Abbreviation decomposition :=
  (get_stress_decomposition dim get_strain_tensor_plus).

(** A loop [for i < n: l[i] += g i] adds [g i] to every entry below [n]. *)
Lemma accumulate_lookup (g : nat -> Q) (n : nat) (l : list Q) (i : nat) :
  fold_left (fun l i => alter (fun r => r + g i) i l) (seq 0 n) l !! i
  = if (i <? n)%nat then (fun r => r + g i) <$> l !! i else l !! i.
Proof.
  induction n as [|n IH].
  - reflexivity.
  - rewrite seq_S, fold_left_app. simpl.
    destruct (Nat.eq_dec n i) as [->|Hne].
    + rewrite list_lookup_alter_eq, IH.
      rewrite (proj2 (Nat.ltb_ge i i)) by lia.
      rewrite (proj2 (Nat.ltb_lt i (S i))) by lia. reflexivity.
    + rewrite list_lookup_alter_ne by exact Hne. rewrite IH.
      destruct (Nat.ltb_spec i n), (Nat.ltb_spec i (S n)); try lia; reflexivity.
Qed.

Lemma add_quadrature_point_lookup c l q i :
  add_quadrature_point dim get_strain_tensor_plus dofs_per_cell c l q !! i
  = if (i <? dofs_per_cell)%nat
    then (fun r => r + contribution dim get_strain_tensor_plus c q i) <$> l !! i
    else l !! i.
Proof.
  unfold add_quadrature_point.
  rewrite (surjective_pairing (decomposition (strain_tensor c q))).
  unfold add_shape_contribution.
  apply (accumulate_lookup (contribution dim get_strain_tensor_plus c q)).
Qed.

Lemma assemble_cell_lookup c i :
  (i < dofs_per_cell)%nat ->
  assemble_cell dim get_strain_tensor_plus dofs_per_cell n_q_points c !! i
  = Some (sumQ n_q_points (fun q => contribution dim get_strain_tensor_plus c q i)).
Proof.
  intros Hi. unfold assemble_cell.
  induction n_q_points as [|n IH].
  - simpl. now apply lookup_replicate_2.
  - rewrite seq_S, fold_left_app. simpl.
    rewrite add_quadrature_point_lookup, IH.
    rewrite (proj2 (Nat.ltb_lt i dofs_per_cell)) by exact Hi. reflexivity.
Qed.

Lemma assemble_rhs_vector_first_owned cells local_rhs :
  assemble_rhs_vector dim get_strain_tensor_plus dofs_per_cell n_q_points cells
    = Some local_rhs ->
  exists skipped cell rest,
    cells = skipped ++ cell :: rest
    /\ Forall (fun c => is_locally_owned c = false) skipped
    /\ is_locally_owned cell = true
    /\ local_rhs
       = assemble_cell dim get_strain_tensor_plus dofs_per_cell n_q_points cell.
Proof.
  induction cells as [|c cells IH]; simpl; intros H.
  - discriminate.
  - destruct (is_locally_owned c) eqn:Hc.
    + exists [], c, cells. injection H as <-. repeat split; auto.
    + destruct (IH H) as (skipped & cell & rest & -> & Hs & Ho & Hr).
      exists (c :: skipped), cell, rest. repeat split; auto.
Qed.

(** C8: in the local right-hand side of the assembled cell, the tensile
    stress term of every quadrature point is multiplied by
    (1 - kappa) phi_e^2 + kappa, with phi_e = phi_old + (phi_old - phi_old_old)
    the phase field extrapolated from the two previous solutions. *)
Theorem tensile_term_degradation (cells : list CellValues) (local_rhs : list Q) :
  assemble_rhs_vector dim get_strain_tensor_plus dofs_per_cell n_q_points cells
    = Some local_rhs ->
  exists skipped cell rest,
    cells = skipped ++ cell :: rest
    /\ Forall (fun c => is_locally_owned c = false) skipped
    /\ is_locally_owned cell = true
    /\ forall i, (i < dofs_per_cell)%nat ->
         exists r, local_rhs !! i = Some r
           /\ r == sumQ n_q_points (fun q =>
                     (degradation (phi_extrapolated cell q)
                        * tensile_term dim get_strain_tensor_plus cell i q
                      + other_terms dim get_strain_tensor_plus cell i q)
                     * JxW cell q).
Proof.
  intros H.
  destruct (assemble_rhs_vector_first_owned cells local_rhs H)
    as (skipped & cell & rest & Hcells & Hs & Ho & ->).
  exists skipped, cell, rest. repeat split; auto.
  intros i Hi. eexists. split; [now apply assemble_cell_lookup|].
  apply sumQ_ext. intros q _.
  unfold contribution, degradation, phi_extrapolated, tensile_term, other_terms.
  simpl. ring.
Qed.

End Assembly.

Lemma tensile_term_degradation_witness :
  exists skipped cell rest,
    example_cells = skipped ++ cell :: rest
    /\ Forall (fun c => phase_field.is_locally_owned c = false) skipped
    /\ phase_field.is_locally_owned cell = true
    /\ forall i, (i < 3)%nat ->
         exists r,
           phase_field.assemble_cell 2 phase_field.clip_diagonal 3 4
             (example_cell true) !! i = Some r
           /\ r == sumQ 4 (fun q =>
                     (phase_field.degradation (phase_field.phi_extrapolated cell q)
                        * phase_field.tensile_term 2 phase_field.clip_diagonal cell i q
                      + phase_field.other_terms 2 phase_field.clip_diagonal cell i q)
                     * phase_field.JxW cell q).
Proof.
  apply (tensile_term_degradation 2 phase_field.clip_diagonal 3 4 example_cells).
  reflexivity.
Defined.

(** Evaluating the left-hand side of an equation. *)
Ltac compute_lhs :=
  match goal with
  | |- ?l = _ => let v := eval vm_compute in l in change l with v
  end.

(** ** The Newton loop *)

Section NewtonLoop.
Import EagleFrac.

Context {deal : DealII} {collab : Collaborators}.
Variable data : PhaseFieldPressurizedData.
Variable pressure : Vector.
Variable time_steps : Q * Q.

Local Abbreviation evaluate := (newton_evaluate pressure time_steps).
Local Abbreviation body := (newton_body data pressure time_steps).
Local Abbreviation loop := (newton_loop data pressure time_steps).
Local Abbreviation accepted_at := (accepted_at data).
Local Abbreviation break_test_at := (break_test_at data).

Lemma break_test old s :
  active_set_changed s old && Qltb (residual_norm s) (newton_tolerance data) = true
  <-> break_test_at old s.
Proof.
  unfold break_test_at, active_set_changed.
  rewrite andb_true_iff, negb_true_iff, bool_decide_eq_false, Qltb_true.
  reflexivity.
Qed.

Lemma body_break n old s s' :
  body n old s = Break s' ->
  (0 < n)%Z /\ s' = evaluate s /\ break_test_at old (evaluate s).
Proof.
  unfold newton_body. destruct (Z.ltb_spec 0 n) as [Hn|Hn]; [|discriminate].
  destruct (active_set_changed _ _ && Qltb _ _) eqn:Htest; [|discriminate].
  intros [= <-]. apply break_test in Htest. auto.
Qed.

Lemma body_break_intro n old s :
  (0 < n)%Z -> break_test_at old (evaluate s) -> body n old s = Break (evaluate s).
Proof.
  intros Hn Hacc. unfold newton_body.
  rewrite (proj2 (Z.ltb_lt 0 n) Hn).
  apply break_test in Hacc. now rewrite Hacc.
Qed.

Lemma body_continue n old s :
  (0 < n)%Z -> ~ break_test_at old (evaluate s) ->
  body n old s
  = Continue (active_set (evaluate s)) (newton_solve pressure time_steps (evaluate s)).
Proof.
  intros Hn Hacc. unfold newton_body.
  rewrite (proj2 (Z.ltb_lt 0 n) Hn).
  destruct (active_set_changed _ _ && Qltb _ _) eqn:Htest; [|reflexivity].
  apply break_test in Htest. contradiction.
Qed.

(** With enough fuel the loop ends either at the cap or at an evaluation
    that passed the break test. *)
Lemma loop_result fuel n old s n' old' s' :
  (n <= max_newton_iter data)%Z ->
  (max_newton_iter data - n <= Z.of_nat fuel)%Z ->
  loop fuel n old s = (n', old', s') ->
  n' = max_newton_iter data
  \/ ((n <= n' < max_newton_iter data)%Z /\ (0 < n')%Z /\ break_test_at old' s').
Proof.
  revert n old s. induction fuel as [|fuel IH]; intros n old s Hle Hfuel; simpl.
  - intros [= <- <- <-]. left. lia.
  - destruct (Z.ltb_spec n (max_newton_iter data)) as [Hlt|Hge].
    + destruct (body n old s) as [s1|old1 s1] eqn:Hbody.
      * intros [= <- <- <-]. apply body_break in Hbody as (Hn & -> & Hacc).
        right. split; [lia|]. split; assumption.
      * intros Hloop. apply IH in Hloop; [|lia|lia].
        destruct Hloop as [->|(Hn & Hpos & Hacc)]; [now left|].
        right. split; [lia|]. split; assumption.
    + intros [= <- <- <-]. left. lia.
Qed.

(** What the loop of [run] does with the flag as the spec describes it: an
    evaluation breaks out exactly when the active set differs from the one
    of the previous iteration and the residual norm is below the tolerance.
    Hence an evaluation at which the active set is unchanged and the
    residual norm is below the tolerance, the acceptance condition of the
    spec, never breaks out, and a loop that ends below the cap ended on a
    changed active set. *)
Lemma newton_breaks_on_changed_set_only :
  (forall n old s, (0 < n)%Z ->
     ((exists s', body n old s = Break s')
      <-> (active_set (evaluate s) <> old
           /\ residual_norm (evaluate s) < newton_tolerance data))
     /\ (accepted_at old (evaluate s) ->
         body n old s
         = Continue (active_set (evaluate s))
                    (newton_solve pressure time_steps (evaluate s))))
  /\ (forall old s n old' s',
        (0 <= max_newton_iter data)%Z ->
        newton_iteration data pressure time_steps old s = (n, old', s') ->
        n <> max_newton_iter data ->
        (0 < n < max_newton_iter data)%Z
        /\ active_set s' <> old'
        /\ residual_norm s' < newton_tolerance data).
Proof.
  split.
  - intros n old s Hn. split; [split|].
    + intros [s' Hb]. now apply body_break in Hb as (_ & _ & Hacc).
    + intros Hacc. eexists. now apply body_break_intro.
    + intros [Hset _]. apply body_continue; [assumption|]. intros [H _]. auto.
  - intros old s n old' s' Hmax Hloop Hn. unfold newton_iteration in Hloop.
    apply loop_result in Hloop; [|lia|lia].
    destruct Hloop as [->|(Hrange & Hpos & Hset & Hres)]; [contradiction|].
    repeat split; try assumption; lia.
Qed.

End NewtonLoop.


(** ** The time loop: step-size cut and refinement redo *)

Section TimeLoop.
Import EagleFrac.

Context {deal : DealII} {collab : Collaborators}.
Variable dim : nat.
Variable data : PhaseFieldPressurizedData.

(** An accepted step never throws. *)
Lemma accept_step_no_throw t p t' p' :
  accept_step data t p <> Throw_NoConvergence t' p'.
Proof. unfold accept_step. destruct (Qltb _ _); discriminate. Qed.

Lemma after_newton_throw t p n t' p' :
  after_newton dim data t p n = Throw_NoConvergence t' p' ->
  n = max_newton_iter data /\ time_step t / 10 < minimum_time_step data
  /\ t' = t /\ p' = p.
Proof.
  unfold after_newton.
  destruct (Z.eqb_spec n (max_newton_iter data)) as [Hn|Hn].
  - destruct (Qltb _ _) eqn:Hmin; [|discriminate].
    intros [= <- <-]. apply Qltb_true in Hmin. auto.
  - destruct (0 <? n_adaptive_steps data)%Z.
    + destruct (prepare_phase_field_refinement _ _ _ _) as [[|] tria];
        [discriminate|]. intros H. now apply accept_step_no_throw in H.
    + intros H. now apply accept_step_no_throw in H.
Qed.

Lemma after_newton_exhausted t p :
  after_newton dim data t p (max_newton_iter data)
  = if Qltb (time_step t / 10) (minimum_time_step data)
    then Throw_NoConvergence t p
    else Goto redo_time_step (cut_time_step t)
           (set_phase_field_solver
              (set_use_old_time_step_phi true
                 (set_solution (old_solution (phase_field_solver p))
                               (phase_field_solver p))) p).
Proof. unfold after_newton. now rewrite Z.eqb_refl. Qed.

(** C2: when the Newton loop of an attempt ends at the iteration cap, the
    controller throws exactly when a tenth of the step is below the minimum
    time step; otherwise it goes back to the redo label with the step
    divided by ten (which is then at least the minimum), the same step
    number, and the solution reset to the old solution.  No other path
    throws. *)
Theorem step_cut_on_newton_exhaustion (t : TimeState) (p : PDSSolid)
    (n : Z) (old : IndexSet) (s : PhaseFieldSolver) :
  attempt_newton data t p = (n, old, s) ->
  ((exists t' p', redo_block dim data t p = Throw_NoConvergence t' p')
   <-> (n = max_newton_iter data
        /\ time_step t / 10 < minimum_time_step data))
  /\ (n = max_newton_iter data ->
      ~ time_step t / 10 < minimum_time_step data ->
      exists p',
        redo_block dim data t p = Goto redo_time_step (cut_time_step t) p'
        /\ time_step (cut_time_step t) = time_step t / 10
        /\ minimum_time_step data <= time_step (cut_time_step t)
        /\ time_step_number (cut_time_step t) = time_step_number t
        /\ solution (phase_field_solver p') = old_solution s
        /\ old_solution (phase_field_solver p') = old_solution s).
Proof.
  intros Hnewton. unfold redo_block. rewrite Hnewton. split; [split|].
  - intros (t' & p' & H). apply after_newton_throw in H. tauto.
  - intros [-> Hmin]. rewrite after_newton_exhausted.
    rewrite (proj2 (Qltb_true _ _) Hmin). eauto.
  - intros -> Hmin. rewrite after_newton_exhausted.
    destruct (Qltb _ _) eqn:Htest.
    + apply Qltb_true in Htest. contradiction.
    + apply Qltb_false in Htest. eexists. split; [reflexivity|].
      repeat split; auto.
Qed.

(** C3 (amended): after a non-converged attempt that is not fatal, the
    controller rolls the time back by the failed step and adds the step
    divided by ten: the redo runs at the failed attempt's time minus nine
    tenths of the failed step, with the pressure evaluated at that time;
    this is the time of the failed attempt only if the step is zero. *)
Theorem redo_time_after_cut (t : TimeState) (p : PDSSolid)
    (n : Z) (old : IndexSet) (s : PhaseFieldSolver) :
  attempt_newton data t p = (n, old, s) ->
  n = max_newton_iter data ->
  ~ time_step t / 10 < minimum_time_step data ->
  exists t' p',
    redo_block dim data t p = Goto redo_time_step t' p'
    /\ time t' = time t - time_step t + time_step t / 10
    /\ time t' == time t - (9 # 10) * time_step t
    /\ time_step t' = time_step t / 10
    /\ (time t' == time t <-> time_step t == 0)
    /\ pressure_relevant_solution (attempt_start data t' p')
       = replicate (length (pressure_owned_solution p))
                   (pressure_function data (time t')).
Proof.
  intros Hnewton -> Hmin. unfold redo_block. rewrite Hnewton.
  rewrite after_newton_exhausted.
  destruct (Qltb _ _) eqn:Htest.
  { apply Qltb_true in Htest. contradiction. }
  eexists _, _. split; [reflexivity|]. simpl.
  assert (Hq : time t - time_step t + time_step t / 10
               == time t - (9 # 10) * time_step t) by field.
  repeat split; auto.
  - rewrite Hq. intros H. lra.
  - rewrite Hq. intros H. lra.
  - unfold assign_scalar. now rewrite length_replicate.
Qed.

(** C6: when the Newton loop ended below the cap, adaptive steps are
    configured and the refiner answers "needed", the controller goes back to
    the redo label with the time, the step size, the old step size and the
    step number unchanged, on the mesh produced by the refinement. *)
Theorem refinement_redo_keeps_time_state (t : TimeState) (p : PDSSolid)
    (n : Z) (old : IndexSet) (s : PhaseFieldSolver) (flagged : Triangulation) :
  attempt_newton data t p = (n, old, s) ->
  n <> max_newton_iter data ->
  (0 < n_adaptive_steps data)%Z ->
  prepare_phase_field_refinement (triangulation p) s
    (phi_refinement_value data) (max_refinement_level data) = (true, flagged) ->
  exists p',
    redo_block dim data t p = Goto redo_time_step t p'
    /\ p' = exectute_adaptive_refinement dim
              (set_triangulation flagged
                 (set_phase_field_solver s (attempt_start data t p)))
    /\ triangulation p' = execute_coarsening_and_refinement flagged.
Proof.
  intros Hnewton Hn Hadapt Hprep. unfold redo_block. rewrite Hnewton.
  unfold after_newton.
  rewrite (proj2 (Z.eqb_neq _ _) Hn), (proj2 (Z.ltb_lt _ _) Hadapt).
  simpl. rewrite Hprep. eexists. split; [reflexivity|]. split; reflexivity.
Qed.

(** C7: the refinement-and-transfer sequence takes a snapshot of the
    current, old and old-old solution vectors, executes the coarsening and
    refinement of the mesh, rebuilds the degree-of-freedom maps on the new
    mesh, and interpolates the three snapshots onto the new map, the first
    into the solution and the other two into the old and old-old
    solutions; these four calls happen in this order. *)
Theorem refinement_and_transfer_sequence (p : PDSSolid) :
  let p' := exectute_adaptive_refinement dim p in
  let s := phase_field_solver p in
  let s' := phase_field_solver p' in
  calls p'
  = calls p
    ++ [call_prepare_for_coarsening_and_refinement
          [solution s; old_solution s; old_old_solution s];
        call_execute_coarsening_and_refinement;
        call_setup_dofs;
        call_interpolate]
  /\ triangulation p' = execute_coarsening_and_refinement (triangulation p)
  /\ dof_handler s' = distribute_dofs (triangulation p')
  /\ pressure_dof_handler p' = distribute_pressure_dofs (triangulation p')
  /\ width_solver p' = width_setup_dofs (triangulation p') (width_solver p)
  /\ solution s' = interpolate_onto (dof_handler s) (dof_handler s') (solution s)
  /\ old_solution s'
     = interpolate_onto (dof_handler s) (dof_handler s') (old_solution s)
  /\ old_old_solution s'
     = interpolate_onto (dof_handler s) (dof_handler s') (old_old_solution s).
Proof.
  simpl. repeat split.
  unfold log_call; simpl. now rewrite <- !app_assoc.
Qed.

(** The redo label is reached with the step of the table, with a step that
    passed the test against the minimum, or with the step of the previous
    attempt.  Hence, when the time-stepping table holds no step below the
    minimum, no attempt runs with one.  (A step of the table is not itself
    tested against the minimum.) *)
Lemma block_step_size l t p l' t' p' :
  block dim data l t p = Goto l' t' p' ->
  (l' = redo_time_step ->
   (l = while_head /\ time_step t' = get_time_step data (time t))
   \/ (l = redo_time_step
       /\ (minimum_time_step data <= time_step t' \/ time_step t' = time_step t))).
Proof.
  destruct l; simpl.
  - unfold while_block. destruct (Qltb _ _); [|discriminate].
    intros [= <- <- <-] _. left. auto.
  - unfold redo_block. destruct (attempt_newton data t p) as [[n old] s].
    unfold after_newton.
    destruct (n =? max_newton_iter data)%Z.
    + destruct (Qltb _ _) eqn:Hmin; [discriminate|].
      intros [= <- <- <-] _. apply Qltb_false in Hmin. right. auto.
    + match goal with
      | |- context [let '(refine, p) := ?c in _] => destruct c as [[|] q]
      end.
      * intros [= <- <- <-] _. right. auto.
      * unfold accept_step. destruct (Qltb _ _); [|discriminate].
        intros [= <- <- <-]. discriminate.
Qed.

(** X16: when the time-stepping table holds no step below the minimum time
    step, no attempt of the time loop runs with a step below it. *)
Lemma attempts_above_minimum fuel l t p :
  (forall x, minimum_time_step data <= get_time_step data x) ->
  (l = redo_time_step -> minimum_time_step data <= time_step t) ->
  Forall (fun a => minimum_time_step data <= time_step a)
         (attempts dim data fuel l t p).
Proof.
  intros Htable. revert l t p.
  induction fuel as [|fuel IH]; intros l t p Hhere; simpl; [constructor|].
  apply Forall_app. split.
  - destruct l; [constructor|]. repeat constructor. now apply Hhere.
  - destruct (block dim data l t p) as [l' t' p'| |] eqn:Hblock; try constructor.
    apply IH. intros Hl'.
    destruct (block_step_size l t p l' t' p' Hblock Hl')
      as [[_ Heq]|[Hl [H|Heq]]].
    + rewrite Heq. apply Htable.
    + exact H.
    + rewrite Heq. now apply Hhere.
Qed.

End TimeLoop.

(** ** The pressure field *)

Section Pressure.
Import EagleFrac.

Context {deal : DealII} {collab : Collaborators}.
Variable dim : nat.
Variable data : PhaseFieldPressurizedData.

Lemma write_indices_length (x : Q) (indices : list nat) (v : list Q) :
  length (fold_left (fun v index => <[index := x]> v) indices v) = length v.
Proof.
  revert v. induction indices as [|i indices IH]; intros v; simpl.
  - reflexivity.
  - now rewrite IH, length_insert.
Qed.

Lemma write_indices_other (x : Q) (indices : list nat) (v : list Q) (j : nat) :
  j ∉ indices ->
  fold_left (fun v index => <[index := x]> v) indices v !! j = v !! j.
Proof.
  revert v. induction indices as [|i indices IH]; intros v Hj; simpl.
  - reflexivity.
  - apply not_elem_of_cons in Hj as [Hne Hj].
    rewrite IH by exact Hj. apply list_lookup_insert_ne. congruence.
Qed.

Lemma write_indices_hit (x : Q) (indices : list nat) (v : list Q) (j : nat) :
  j ∈ indices -> (j < length v)%nat ->
  fold_left (fun v index => <[index := x]> v) indices v !! j = Some x.
Proof.
  revert v. induction indices as [|i indices IH]; intros v Hj Hlen; simpl.
  - now apply elem_of_nil in Hj.
  - destruct (decide (j ∈ indices)) as [Hin|Hout].
    + apply IH; [exact Hin | now rewrite length_insert].
    + apply elem_of_cons in Hj as [->|Hin]; [|contradiction].
      rewrite write_indices_other by exact Hout.
      now apply list_lookup_insert_eq.
Qed.

Lemma impose_on_cell_length max_value s dh v cell :
  length (impose_pressure_on_cell dim max_value s dh v cell) = length v.
Proof.
  unfold impose_pressure_on_cell. destruct (cell_is_locally_owned cell);
    [apply write_indices_length | reflexivity].
Qed.

Lemma impose_on_cells_length max_value s dh cells v :
  length (fold_left (impose_pressure_on_cell dim max_value s dh) cells v)
  = length v.
Proof.
  revert v. induction cells as [|c cells IH]; intros v; simpl.
  - reflexivity.
  - now rewrite IH, impose_on_cell_length.
Qed.

(** Cells that do not own the index, or are not locally owned, leave the
    entry alone. *)
Lemma impose_on_cells_untouched max_value s dh cells v j :
  (forall c, c ∈ cells -> cell_is_locally_owned c = true ->
             j ∉ get_dof_indices dh c) ->
  fold_left (impose_pressure_on_cell dim max_value s dh) cells v !! j = v !! j.
Proof.
  revert v. induction cells as [|c cells IH]; intros v Hfree; simpl.
  - reflexivity.
  - rewrite IH by (intros c' Hc'; apply Hfree; apply elem_of_cons; auto).
    unfold impose_pressure_on_cell.
    destruct (cell_is_locally_owned c) eqn:Hown; [|reflexivity].
    apply write_indices_other. apply Hfree; [apply elem_of_cons; auto | exact Hown].
Qed.

(** C5 (amended): at the start of every attempt of a time step, [run] sets
    every pressure degree of freedom to the value of the time-pressure
    curve, whatever the phase field, and this uniform field is the one the
    Newton solve of the attempt receives.  The thresholding routine
    [impose_pressure_values], which [run] does not call, writes cell by
    cell: an index of a locally owned cell ends with the full value when
    that cell's mean phase field is below 0.9 and with zero otherwise,
    provided no later locally owned cell has the same index. *)
Theorem pressure_update_is_uniform :
  (forall (t : TimeState) (p : PDSSolid),
     pressure_owned_solution (update_pressure data t p)
       = replicate (length (pressure_owned_solution p))
                   (pressure_function data (time t))
     /\ pressure_relevant_solution (update_pressure data t p)
        = replicate (length (pressure_owned_solution p))
                    (pressure_function data (time t))
     /\ attempt_newton data t p
        = newton_iteration data
            (replicate (length (pressure_owned_solution p))
                       (pressure_function data (time t)))
            (time_step t, old_time_step t)
            (active_set (phase_field_solver (attempt_start data t p)))
            (phase_field_solver (attempt_start data t p)))
  /\ (forall (max_value : Q) (p : PDSSolid) (before : list Cell) (cell : Cell)
             (after : list Cell) (index : nat),
        active_cells (triangulation p) = before ++ cell :: after ->
        cell_is_locally_owned cell = true ->
        index ∈ get_dof_indices (pressure_dof_handler p) cell ->
        (index < length (pressure_owned_solution p))%nat ->
        (forall c, c ∈ after -> cell_is_locally_owned c = true ->
                   index ∉ get_dof_indices (pressure_dof_handler p) c) ->
        pressure_owned_solution (impose_pressure_values dim max_value p) !! index
        = Some (cell_pressure dim max_value
                  (get_function_values (dof_handler (phase_field_solver p)) cell
                     (solution (phase_field_solver p))))).
Proof.
  split.
  - intros t p. repeat split.
  - intros max_value p before cell after index Hcells Hown Hin Hlen Hlast.
    unfold impose_pressure_values. simpl. rewrite Hcells.
    rewrite fold_left_app. simpl.
    rewrite impose_on_cells_untouched by exact Hlast.
    unfold impose_pressure_on_cell at 1. rewrite Hown. simpl.
    apply write_indices_hit; [exact Hin|].
    now rewrite impose_on_cells_length.
Qed.

End Pressure.

(** C5, as stated, fails: on the one-cell mesh with phase field 1 (mean
    above the threshold) the claim asks for zero pressure, but after the
    pressure update of [run] both pressure entries hold the full value 5. *)
Lemma pressure_update_counterexample :
  ~ pressure_follows_crack (collab := Toy.toy_collab false) 1 5
      (EagleFrac.update_pressure (Toy.toy_data 0) Toy.toy_first_attempt
         (Toy.toy_solid false)).
Proof.
  intros H. specialize (H 0%nat). simpl in H.
  specialize (H ltac:(repeat constructor) 0%nat ltac:(repeat constructor)).
  vm_compute in H. discriminate H.
Qed.

Lemma pressure_update_is_uniform_witness :
  EagleFrac.pressure_owned_solution
    (EagleFrac.update_pressure (collab := Toy.toy_collab false)
       (Toy.toy_data 0) Toy.toy_first_attempt (Toy.toy_solid false))
  = [5; 5]
  /\ EagleFrac.pressure_owned_solution
       (EagleFrac.impose_pressure_values (collab := Toy.toy_collab false)
          1 5 (Toy.toy_solid false)) !! 1%nat
     = Some 0.
Proof.
  destruct (pressure_update_is_uniform (collab := Toy.toy_collab false) 1
              (Toy.toy_data 0)) as [Hrun Hroutine].
  split.
  - apply (Hrun Toy.toy_first_attempt (Toy.toy_solid false)).
  - apply (Hroutine 5 (Toy.toy_solid false) [] 0%nat [] 1%nat).
    + reflexivity.
    + reflexivity.
    + repeat constructor.
    + simpl; lia.
    + intros c Hc. now apply elem_of_nil in Hc.
Defined.

(** ** The time loop on the small instance *)

Lemma step_cut_on_newton_exhaustion_witness :
  exists p',
    EagleFrac.redo_block (collab := Toy.toy_collab true) 1 (Toy.toy_data 0)
      Toy.toy_first_attempt (Toy.toy_solid true)
    = EagleFrac.Goto EagleFrac.redo_time_step
        (EagleFrac.cut_time_step Toy.toy_first_attempt) p'
    /\ 1 # 2 <= EagleFrac.time_step (EagleFrac.cut_time_step Toy.toy_first_attempt).
Proof.
  destruct (step_cut_on_newton_exhaustion (collab := Toy.toy_collab true) 1
              (Toy.toy_data 0) Toy.toy_first_attempt (Toy.toy_solid true) 3 ∅
              (snd (EagleFrac.attempt_newton (collab := Toy.toy_collab true)
                      (Toy.toy_data 0) Toy.toy_first_attempt (Toy.toy_solid true))))
    as [_ Hcut].
  - vm_compute; reflexivity.
  - destruct Hcut as (p' & Hgo & _ & Hmin & _).
    + reflexivity.
    + intros H; vm_compute in H; discriminate H.
    + exists p'. split; [exact Hgo | exact Hmin].
Defined.

(** C3, as stated, fails: the attempt at time 10 with step 10 does not
    converge, and the redo runs at time 1, not at time 10. *)
Lemma redo_time_counterexample :
  exists t' p',
    fst (fst (EagleFrac.attempt_newton (collab := Toy.toy_collab true)
                (Toy.toy_data 0) Toy.toy_first_attempt (Toy.toy_solid true)))
    = EagleFrac.max_newton_iter (Toy.toy_data 0)
    /\ EagleFrac.redo_block (collab := Toy.toy_collab true) 1 (Toy.toy_data 0)
         Toy.toy_first_attempt (Toy.toy_solid true)
       = EagleFrac.Goto EagleFrac.redo_time_step t' p'
    /\ EagleFrac.time t' == 1
    /\ ~ EagleFrac.time t' == EagleFrac.time Toy.toy_first_attempt.
Proof.
  eexists _, _. split; [vm_compute; reflexivity|].
  split; [compute_lhs; reflexivity|].
  split; [reflexivity|].
  intros H; vm_compute in H; discriminate H.
Qed.

Lemma redo_time_after_cut_witness :
  exists t' p',
    EagleFrac.redo_block (collab := Toy.toy_collab true) 1 (Toy.toy_data 0)
      Toy.toy_first_attempt (Toy.toy_solid true)
    = EagleFrac.Goto EagleFrac.redo_time_step t' p'
    /\ EagleFrac.time t' == 10 - (9 # 10) * 10.
Proof.
  destruct (redo_time_after_cut (collab := Toy.toy_collab true) 1
              (Toy.toy_data 0) Toy.toy_first_attempt (Toy.toy_solid true) 3 ∅
              (snd (EagleFrac.attempt_newton (collab := Toy.toy_collab true)
                      (Toy.toy_data 0) Toy.toy_first_attempt (Toy.toy_solid true))))
    as (t' & p' & Hgo & _ & Htime & _).
  - vm_compute; reflexivity.
  - reflexivity.
  - intros H; vm_compute in H; discriminate H.
  - exists t', p'. split; [exact Hgo | exact Htime].
Defined.

Lemma refinement_redo_keeps_time_state_witness :
  exists p',
    EagleFrac.redo_block (collab := Toy.toy_collab false) 1 (Toy.toy_data 3)
      Toy.toy_first_attempt (Toy.toy_solid false)
    = EagleFrac.Goto EagleFrac.redo_time_step Toy.toy_first_attempt p'
    /\ EagleFrac.triangulation p' = 2%nat.
Proof.
  destruct (refinement_redo_keeps_time_state (collab := Toy.toy_collab false) 1
              (Toy.toy_data 3) Toy.toy_first_attempt (Toy.toy_solid false) 1 ∅
              (snd (EagleFrac.attempt_newton (collab := Toy.toy_collab false)
                      (Toy.toy_data 3) Toy.toy_first_attempt (Toy.toy_solid false)))
              1%nat)
    as (p' & Hgo & _ & Hmesh).
  - vm_compute; reflexivity.
  - discriminate.
  - reflexivity.
  - reflexivity.
  - exists p'. split; [exact Hgo | exact Hmesh].
Defined.

(** ** The command line *)

Lemma parse_arguments_rest (args : list string) (arg_number : Z) (filename : string) :
  (1 < arg_number)%Z -> parse_arguments args arg_number filename = filename.
Proof.
  revert arg_number. induction args as [|a args IH]; intros k Hk; simpl.
  - reflexivity.
  - rewrite (proj2 (Z.eqb_neq k 1)) by lia. apply IH. lia.
Qed.

(** C10: with at least one argument, [parse_command_line] returns
    [argv[1]], prints nothing and does not look at the other arguments; with
    none it prints a message and exits with status 1, and [main] has then
    only initialised MPI: no [PDSSolid] has been constructed. *)
Theorem parse_command_line_first_argument (argc : Z) (argv : list string) :
  ((2 <= argc)%Z ->
     parse_command_line argc argv = Returns [] (nth 1 argv EmptyString)
     /\ forall argv', nth 1 argv' EmptyString = nth 1 argv EmptyString ->
          parse_command_line argc argv' = parse_command_line argc argv)
  /\ ((argc < 2)%Z ->
      parse_command_line argc argv = Exits ["specify the file name"%string] 1
      /\ forall run_throws, main run_throws argc argv = ([ev_MPI_InitFinalize], 1%Z)).
Proof.
  assert (Hfirst : forall av, (2 <= argc)%Z ->
            parse_command_line argc av = Returns [] (nth 1 av EmptyString)).
  { intros av Hargc. unfold parse_command_line.
    rewrite (proj2 (Z.ltb_ge argc 2)) by lia.
    destruct (Z.to_nat argc - 1)%nat as [|k] eqn:Hk; [lia|].
    simpl. f_equal. apply parse_arguments_rest. lia. }
  split.
  - intros Hargc. split; [now apply Hfirst|].
    intros argv' Heq. rewrite !Hfirst by exact Hargc. now rewrite Heq.
  - intros Hargc. unfold main, parse_command_line.
    rewrite (proj2 (Z.ltb_lt argc 2)) by lia. split; reflexivity.
Qed.

Lemma parse_command_line_first_argument_witness :
  parse_command_line 3 ["eaglefrac"; "input.prm"; "extra"]%string
  = Returns [] "input.prm"%string
  /\ parse_command_line 1 ["eaglefrac"%string]
     = Exits ["specify the file name"%string] 1.
Proof.
  split.
  - destruct (parse_command_line_first_argument 3
                ["eaglefrac"; "input.prm"; "extra"]%string) as [Hsome _].
    destruct Hsome as [Hfirst _]; [lia | exact Hfirst].
  - destruct (parse_command_line_first_argument 1 ["eaglefrac"%string])
      as [_ Hnone].
    destruct Hnone as [Hexit _]; [lia | exact Hexit].
Defined.

(** * Further properties of the driver *)

(** ** The case name *)

Lemma last_index_of_absent (c : ascii) (s : list ascii) :
  c ∉ s -> last_index_of c s = None.
Proof.
  induction s as [|x s IH]; intros Hc; simpl.
  - reflexivity.
  - apply not_elem_of_cons in Hc as [Hne Hc]. rewrite (IH Hc).
    destruct (Ascii.eqb_spec x c) as [->|_]; [contradiction | reflexivity].
Qed.

Lemma last_index_of_last (c : ascii) (pre post : list ascii) :
  c ∉ post -> last_index_of c (pre ++ c :: post) = Some (length pre).
Proof.
  intros Hc. induction pre as [|x pre IH]; simpl.
  - rewrite (last_index_of_absent c post Hc). now rewrite Ascii.eqb_refl.
  - now rewrite IH.
Qed.

Lemma substr_to_end (s : list ascii) (pos : nat) :
  (Z.of_nat (length s) < npos)%Z -> (pos <= length s)%nat ->
  substr s (Z.of_nat pos) npos = Some (drop pos s).
Proof.
  intros Hsize Hpos. unfold substr.
  rewrite (proj2 (Z.ltb_ge _ _)) by lia.
  rewrite Z.min_r by lia. rewrite Nat2Z.id. f_equal.
  apply take_ge. rewrite length_drop. lia.
Qed.

(** X1: Without a slash in the name of the input file, the function throws
    [std::out_of_range] (from [substr(npos)]) and no directory is touched,
    on every process. *)
Theorem prepare_output_directories_without_slash
    (input_file_name : list ascii) (this_mpi_process : Z)
    (is_directory : list ascii -> bool) :
  (Z.of_nat (length input_file_name) < npos)%Z ->
  "/"%char ∉ input_file_name ->
  prepare_output_directories input_file_name this_mpi_process is_directory
  = throws_out_of_range.
Proof.
  intros Hsize Hslash. unfold prepare_output_directories, compute_case_name.
  unfold find_last_of. rewrite (last_index_of_absent _ _ Hslash).
  unfold substr at 1. now rewrite (proj2 (Z.ltb_lt _ _) Hsize).
Qed.

Lemma prepare_output_directories_without_slash_witness :
  prepare_output_directories (list_ascii_of_string "input.prm") 0 (fun _ => true)
  = throws_out_of_range.
Proof.
  apply prepare_output_directories_without_slash.
  - vm_compute; reflexivity.
  - intros H. repeat (apply elem_of_cons in H as [H|H]; [discriminate H|]).
    now apply elem_of_nil in H.
Defined.

(** X2: With a slash, the case name is what follows the last slash, cut before
    its last dot if it has one: [dir/stem.ext] gives [stem], and [dir/base]
    without a dot gives [base]. *)
Theorem case_name_is_stem_of_basename (dir base : list ascii) :
  (Z.of_nat (length (dir ++ "/"%char :: base)) < npos)%Z ->
  "/"%char ∉ base ->
  ("."%char ∉ base -> compute_case_name (dir ++ "/"%char :: base) = Some base)
  /\ (forall stem ext, base = stem ++ "."%char :: ext -> "."%char ∉ ext ->
        compute_case_name (dir ++ "/"%char :: base) = Some stem).
Proof.
  intros Hsize Hslash.
  assert (Hlen : length (dir ++ "/"%char :: base) = (length dir + S (length base))%nat)
    by (rewrite length_app; reflexivity).
  assert (Htail : substr (dir ++ "/"%char :: base)
                    (find_last_of (dir ++ "/"%char :: base) "/"%char) npos
                  = Some ("/"%char :: base)).
  { unfold find_last_of. rewrite (last_index_of_last _ dir base Hslash).
    rewrite substr_to_end by (try exact Hsize; lia).
    now rewrite drop_app_length. }
  assert (Hpos : find_last_of (dir ++ "/"%char :: base) "/"%char
                 = Z.of_nat (length dir)).
  { unfold find_last_of. now rewrite (last_index_of_last _ dir base Hslash). }
  assert (Hdrop : drop (S (length dir)) (dir ++ "/"%char :: base) = base).
  { replace (S (length dir)) with (length (dir ++ ["/"%char]))
      by (rewrite length_app; simpl; lia).
    rewrite (cons_middle "/"%char dir base), app_assoc. apply drop_app_length. }
  split.
  - intros Hdot. unfold compute_case_name. rewrite Htail, Hpos.
    unfold rfind, find_last_of.
    rewrite (last_index_of_absent "."%char ("/"%char :: base)).
    2:{ apply not_elem_of_cons. split; [discriminate | exact Hdot]. }
    unfold substr, npos, size_t_modulus in *.
    rewrite Z.mod_small by lia. rewrite Z.mod_small by lia.
    rewrite (proj2 (Z.ltb_ge _ _)) by lia.
    rewrite Z.min_r by lia.
    replace (Z.to_nat (Z.of_nat (length dir) + 1)) with (S (length dir)) by lia.
    rewrite Hdrop. f_equal. apply take_ge. lia.
  - intros stem ext -> Hdot. unfold compute_case_name. rewrite Htail, Hpos.
    unfold rfind, find_last_of.
    change ("/"%char :: stem ++ "."%char :: ext)
      with (("/"%char :: stem) ++ "."%char :: ext).
    rewrite (last_index_of_last "."%char ("/"%char :: stem) ext Hdot).
    clear Htail Hpos Hlen.
    change (("/"%char :: stem) ++ "."%char :: ext)
      with ("/"%char :: stem ++ "."%char :: ext).
    assert (Hlen : length (dir ++ "/"%char :: stem ++ "."%char :: ext)
                   = (length dir + S (length stem + S (length ext)))%nat)
      by (rewrite length_app; simpl; rewrite length_app; simpl; lia).
    unfold substr, npos, size_t_modulus in *. rewrite Hlen in *. simpl length.
    rewrite Z.mod_small by lia. rewrite Z.mod_small by lia.
    rewrite (proj2 (Z.ltb_ge _ _)) by lia.
    rewrite Z.min_l by lia.
    replace (Z.to_nat (Z.of_nat (length dir) + 1)) with (S (length dir)) by lia.
    rewrite Hdrop.
    replace (Z.to_nat (Z.of_nat (S (length stem)) - 1)) with (length stem) by lia.
    now rewrite take_app_length.
Qed.

Lemma case_name_is_stem_of_basename_witness :
  compute_case_name (list_ascii_of_string "./input/test.case.prm")
  = Some (list_ascii_of_string "test.case")
  /\ compute_case_name (list_ascii_of_string "run/case")
     = Some (list_ascii_of_string "case").
Proof.
  split.
  - destruct (case_name_is_stem_of_basename
                (list_ascii_of_string "./input")
                (list_ascii_of_string "test.case.prm")) as [_ Hstem].
    + vm_compute; reflexivity.
    + intros H. repeat (apply elem_of_cons in H as [H|H]; [discriminate H|]).
      now apply elem_of_nil in H.
    + apply (Hstem (list_ascii_of_string "test.case") (list_ascii_of_string "prm")).
      * reflexivity.
      * intros H. repeat (apply elem_of_cons in H as [H|H]; [discriminate H|]).
        now apply elem_of_nil in H.
  - destruct (case_name_is_stem_of_basename
                (list_ascii_of_string "run")
                (list_ascii_of_string "case")) as [Hbase _].
    + vm_compute; reflexivity.
    + intros H. repeat (apply elem_of_cons in H as [H|H]; [discriminate H|]).
      now apply elem_of_nil in H.
    + apply Hbase.
      intros H. repeat (apply elem_of_cons in H as [H|H]; [discriminate H|]).
      now apply elem_of_nil in H.
Defined.

(** ** The toughness map *)

(** X3: For component 0 the map takes the inside value exactly on the closed
    rectangle (its boundary included) and the beyond value elsewhere, so a
    rectangle whose limits are given in the wrong order yields the beyond
    value everywhere; every other component is 0. *)
Theorem ToughnessMap_value_on_rectangle (m : ToughnessMap) (p : nat -> Q)
    (component : Z) :
  let inside :=
    fst (xlim m) <= p 0%nat /\ p 0%nat <= snd (xlim m)
    /\ fst (ylim m) <= p 1%nat /\ p 1%nat <= snd (ylim m) in
  (component = 0%Z -> inside -> ToughnessMap_value m p component = inside_value m)
  /\ (component = 0%Z -> ~ inside ->
      ToughnessMap_value m p component = beyond_value m)
  /\ (component = 0%Z ->
      snd (xlim m) < fst (xlim m) \/ snd (ylim m) < fst (ylim m) ->
      ToughnessMap_value m p component = beyond_value m)
  /\ (component <> 0%Z -> ToughnessMap_value m p component = 0).
Proof.
  simpl. unfold ToughnessMap_value.
  assert (Htest :
    Qle_bool (fst (xlim m)) (p 0%nat) && Qle_bool (p 0%nat) (snd (xlim m))
    && Qle_bool (fst (ylim m)) (p 1%nat) && Qle_bool (p 1%nat) (snd (ylim m)) = true
    <-> fst (xlim m) <= p 0%nat /\ p 0%nat <= snd (xlim m)
        /\ fst (ylim m) <= p 1%nat /\ p 1%nat <= snd (ylim m)).
  { rewrite !andb_true_iff, !Qle_bool_iff. tauto. }
  repeat split.
  - intros -> Hin. simpl. now rewrite (proj2 Htest Hin).
  - intros -> Hout. simpl.
    destruct (_ && _); [|reflexivity].
    destruct Hout. now apply Htest.
  - intros -> Hempty. simpl.
    destruct (_ && _); [|reflexivity].
    destruct (proj1 Htest eq_refl) as (H1 & H2 & H3 & H4).
    destruct Hempty as [H|H]; exfalso; lra.
  - intros Hc. now rewrite (proj2 (Z.eqb_neq _ _) Hc).
Qed.

Lemma ToughnessMap_value_on_rectangle_witness :
  ToughnessMap_value
    {| xlim := (0, 1); ylim := (0, 2); inside_value := 100; beyond_value := 7 |}
    (fun i => if (i =? 0)%nat then 1 else 2) 0 = 100
  /\ ToughnessMap_value
       {| xlim := (1, 0); ylim := (0, 2); inside_value := 100; beyond_value := 7 |}
       (fun _ => 1 # 2) 0 = 7.
Proof.
  split.
  - apply (ToughnessMap_value_on_rectangle
             {| xlim := (0, 1); ylim := (0, 2); inside_value := 100; beyond_value := 7 |}
             (fun i => if (i =? 0)%nat then 1 else 2) 0); [reflexivity|].
    simpl. repeat split; lra.
  - apply (ToughnessMap_value_on_rectangle
             {| xlim := (1, 0); ylim := (0, 2); inside_value := 100; beyond_value := 7 |}
             (fun _ => 1 # 2) 0); [reflexivity|].
    left. simpl. lra.
Defined.

(** ** Postprocessing *)

Lemma cod_lines_nth (start end_ : Q) (n_lines : Z) (k : nat) :
  (k < Z.to_nat n_lines)%nat ->
  nth k (cod_lines start end_ n_lines) 0
  = start + (end_ - start) / inject_Z (to_unsigned (n_lines - 1))
            * inject_Z (Z.of_nat k).
Proof.
  intros Hk. unfold cod_lines.
  set (f := fun k : nat => start + (end_ - start)
              / inject_Z (to_unsigned (n_lines - 1)) * inject_Z (Z.of_nat k)).
  rewrite (nth_indep _ 0 (f O))
    by (rewrite length_map, length_seq; exact Hk).
  rewrite (map_nth f), seq_nth by exact Hk. reflexivity.
Qed.

(** X4: With at least two lines, the positions of the crack-opening measurement
    run from [start] to [end] in equal steps of [(end - start)/(n_lines - 1)]:
    there are [n_lines] of them, the first is [start] and the last is
    [end]. *)
Theorem cod_lines_span (start end_ : Q) (n_lines : Z) :
  (2 <= n_lines < 2 ^ 32)%Z ->
  length (cod_lines start end_ n_lines) = Z.to_nat n_lines
  /\ nth 0 (cod_lines start end_ n_lines) 0 == start
  /\ nth (Z.to_nat n_lines - 1) (cod_lines start end_ n_lines) 0 == end_
  /\ forall k, (S k < Z.to_nat n_lines)%nat ->
       nth (S k) (cod_lines start end_ n_lines) 0
       - nth k (cod_lines start end_ n_lines) 0
       == (end_ - start) / inject_Z (n_lines - 1).
Proof.
  intros Hn.
  assert (Hu : to_unsigned (n_lines - 1) = (n_lines - 1)%Z)
    by (unfold to_unsigned; apply Z.mod_small; lia).
  assert (Hpos : ~ inject_Z (n_lines - 1) == 0).
  { intros H. assert (0 < inject_Z (n_lines - 1)).
    { change 0 with (inject_Z 0). rewrite <- Zlt_Qlt. lia. }
    lra. }
  split; [|split; [|split]].
  - unfold cod_lines. now rewrite length_map, length_seq.
  - rewrite cod_lines_nth by lia. simpl. ring.
  - rewrite cod_lines_nth by lia. rewrite Hu.
    replace (Z.of_nat (Z.to_nat n_lines - 1)) with (n_lines - 1)%Z by lia.
    field. exact Hpos.
  - intros k Hk. rewrite !cod_lines_nth by lia. rewrite Hu.
    rewrite Nat2Z.inj_succ. unfold Z.succ. rewrite inject_Z_plus.
    field. exact Hpos.
Qed.

Lemma cod_lines_span_witness :
  nth 0 (cod_lines 15 25 33) 0 == 15 /\ nth 32 (cod_lines 15 25 33) 0 == 25.
Proof.
  destruct (cod_lines_span 15 25 33) as (_ & Hfirst & Hlast & _).
  - lia.
  - split; [exact Hfirst | exact Hlast].
Defined.

Section PostprocessingFacts.

Variable compute_boundary_load : Z -> phase_field.Tensor1.
Variable compute_cod : list (option Q) -> Z -> list Q.

Lemma postprocess_one_other_rank rank name args n t writes :
  rank <> 0%Z ->
  postprocess_one compute_boundary_load compute_cod rank name args n t
    = post_done writes ->
  writes = [].
Proof.
  intros Hrank. unfold postprocess_one.
  rewrite (proj2 (Z.eqb_neq _ _) Hrank).
  destruct (String.eqb name "boundary_load").
  { destruct (args !! 0%nat) as [[z|q]|]; congruence. }
  destruct (String.eqb name "COD"); [|congruence].
  destruct (args !! 0%nat) as [[?|?]|]; try congruence.
  destruct (args !! 1%nat) as [[?|?]|]; try congruence.
  destruct (args !! 2%nat) as [[?|?]|]; try congruence.
  destruct (args !! 3%nat) as [[?|?]|]; congruence.
Qed.

(** X5: Function names other than [boundary_load] and [COD] are skipped without
    any output or error, whatever their arguments; and a process of rank
    other than 0 never writes, whatever the functions. *)
Theorem execute_postprocessing_skips_and_ranks (rank : Z) (names : list string)
    (args : list (list Variant)) (time_step_number : Z) (time : Q) :
  (Forall (fun name => name <> "boundary_load"%string /\ name <> "COD"%string) names ->
   execute_postprocessing compute_boundary_load compute_cod rank names args
     time_step_number time = ([], post_done []))
  /\ (rank <> 0%Z ->
      fst (execute_postprocessing compute_boundary_load compute_cod rank names args
             time_step_number time) = []).
Proof.
  split.
  - intros Hnames. revert args.
    induction Hnames as [|name names [Hb Hc] _ IH]; intros args; simpl.
    + reflexivity.
    + unfold postprocess_one.
      rewrite (proj2 (String.eqb_neq _ _) Hb), (proj2 (String.eqb_neq _ _) Hc).
      now rewrite IH.
  - intros Hrank. revert args.
    induction names as [|name names IH]; intros args; simpl.
    + reflexivity.
    + destruct (postprocess_one _ _ _ _ _ _ _) as [writes| |] eqn:Hone;
        try reflexivity.
      apply postprocess_one_other_rank in Hone; [|exact Hrank]. subst writes.
      specialize (IH (tail args)).
      destruct (execute_postprocessing _ _ _ _ _ _ _) as [later result].
      simpl in *. exact IH.
Qed.

End PostprocessingFacts.

Lemma execute_postprocessing_skips_and_ranks_witness :
  execute_postprocessing (fun _ _ => 0) (fun lines _ => map (fun _ => 0) lines) 0
    ["cod"; "Boundary_load"]%string [[variant_int 1]; []] 3 (1 # 2)
  = ([], post_done [])
  /\ fst (execute_postprocessing (fun _ _ => 0) (fun lines _ => map (fun _ => 0) lines) 2
            ["COD"; "boundary_load"]%string
            [[variant_double 15; variant_double 25; variant_int 3; variant_int 1];
             [variant_int 0]] 3 (1 # 2))
     = [].
Proof.
  split.
  - apply (execute_postprocessing_skips_and_ranks (fun _ _ => 0)
             (fun lines _ => map (fun _ => 0) lines) 0 ["cod"; "Boundary_load"]%string).
    repeat constructor; discriminate.
  - apply (execute_postprocessing_skips_and_ranks (fun _ _ => 0)
             (fun lines _ => map (fun _ => 0) lines) 2). discriminate.
Defined.

(** ** More on the pressure field *)

Lemma fold_sum_is_sumQ (f : nat -> Q) (n : nat) :
  fold_left (fun m q => m + f q) (seq 0 n) 0 = sumQ n f.
Proof.
  induction n as [|n IH]; [reflexivity|].
  rewrite seq_S, fold_left_app. simpl. now rewrite IH.
Qed.

Lemma sumQ_lt_bound (f : nat -> Q) (c : Q) (n : nat) :
  (0 < n)%nat -> (forall i, (i < n)%nat -> f i < c) ->
  sumQ n f < c * inject_Z (Z.of_nat n).
Proof.
  induction n as [|n IH]; intros Hn Hf; [lia|].
  rewrite Nat2Z.inj_succ. unfold Z.succ. rewrite inject_Z_plus. simpl sumQ.
  assert (Hlast : f n < c) by (apply Hf; lia).
  destruct n as [|n].
  - simpl. change (inject_Z (Z.of_nat 0)) with 0. change (inject_Z 1) with 1. lra.
  - assert (sumQ (S n) f < c * inject_Z (Z.of_nat (S n)))
      by (apply IH; [lia | intros; apply Hf; lia]).
    change (inject_Z 1) with 1. lra.
Qed.

Lemma sumQ_ge_bound (f : nat -> Q) (c : Q) (n : nat) :
  (forall i, (i < n)%nat -> c <= f i) ->
  c * inject_Z (Z.of_nat n) <= sumQ n f.
Proof.
  induction n as [|n IH]; intros Hf.
  - simpl. change (inject_Z (Z.of_nat 0)) with 0. lra.
  - rewrite Nat2Z.inj_succ. unfold Z.succ. rewrite inject_Z_plus. simpl sumQ.
    assert (c <= f n) by (apply Hf; lia).
    assert (c * inject_Z (Z.of_nat n) <= sumQ n f)
      by (apply IH; intros; apply Hf; lia).
    change (inject_Z 1) with 1. lra.
Qed.

Lemma n_q_points_positive (dim : nat) :
  0 < inject_Z (Z.of_nat (EagleFrac.n_q_points dim)).
Proof.
  change 0 with (inject_Z 0). rewrite <- Zlt_Qlt.
  unfold EagleFrac.n_q_points.
  assert (2 ^ dim <> 0)%nat by (apply Nat.pow_nonzero; lia). lia.
Qed.

(** X6: A cell whose phase field is below 0.9 at every quadrature point gets the
    full pressure value, and a cell whose phase field is at least 0.9 at
    every quadrature point gets zero. *)
Theorem cell_pressure_by_pointwise_threshold (dim : nat) (max_value : Q)
    (phi_values : list Q) :
  ((forall q, (q < EagleFrac.n_q_points dim)%nat -> nth q phi_values 0 < 9 # 10) ->
   EagleFrac.cell_pressure dim max_value phi_values = max_value)
  /\ ((forall q, (q < EagleFrac.n_q_points dim)%nat -> 9 # 10 <= nth q phi_values 0) ->
      EagleFrac.cell_pressure dim max_value phi_values = 0).
Proof.
  pose proof (n_q_points_positive dim) as Hn.
  assert (Hnat : (0 < EagleFrac.n_q_points dim)%nat).
  { unfold EagleFrac.n_q_points.
    assert (2 ^ dim <> 0)%nat by (apply Nat.pow_nonzero; lia). lia. }
  unfold EagleFrac.cell_pressure.
  rewrite (fold_sum_is_sumQ (fun q => nth q phi_values 0)).
  split; intros Hphi.
  - rewrite (proj2 (Qltb_true _ _)); [reflexivity|].
    apply Qlt_shift_div_r; [exact Hn|].
    now apply sumQ_lt_bound.
  - rewrite (proj2 (Qltb_false _ _)); [reflexivity|].
    apply Qle_shift_div_l; [exact Hn|].
    now apply sumQ_ge_bound.
Qed.

Lemma cell_pressure_by_pointwise_threshold_witness :
  EagleFrac.cell_pressure 2 5 [0; 1 # 2; 1 # 4; 8 # 10] = 5
  /\ EagleFrac.cell_pressure 2 5 [1; 1; 9 # 10; 1] = 0.
Proof.
  split.
  - apply (cell_pressure_by_pointwise_threshold 2 5 [0; 1 # 2; 1 # 4; 8 # 10]).
    intros q Hq. change (EagleFrac.n_q_points 2) with 4%nat in Hq.
    destruct q as [|[|[|[|q]]]]; try lia; reflexivity.
  - apply (cell_pressure_by_pointwise_threshold 2 5 [1; 1; 9 # 10; 1]).
    intros q Hq. change (EagleFrac.n_q_points 2) with 4%nat in Hq.
    destruct q as [|[|[|[|q]]]]; try lia; simpl; lra.
Defined.

Section PressureFrame.
Import EagleFrac.

Context {deal : DealII} {collab : Collaborators}.
Variable dim : nat.
Variable data : PhaseFieldPressurizedData.

Lemma write_indices_cases (x : Q) (indices : list nat) (v : list Q) (j : nat) :
  fold_left (fun v index => <[index := x]> v) indices v !! j = v !! j
  \/ (j ∈ indices
      /\ fold_left (fun v index => <[index := x]> v) indices v !! j = Some x).
Proof.
  destruct (decide (j ∈ indices)) as [Hin|Hout].
  - destruct (Nat.lt_ge_cases j (length v)) as [Hlt|Hge].
    + right. split; [exact Hin|]. now apply write_indices_hit.
    + left. rewrite (lookup_ge_None_2 v j Hge).
      apply lookup_ge_None_2. now rewrite write_indices_length.
  - left. now apply write_indices_other.
Qed.

Lemma impose_on_cells_cases max_value s dh cells v j :
  fold_left (impose_pressure_on_cell dim max_value s dh) cells v !! j = v !! j
  \/ exists cell, cell ∈ cells /\ cell_is_locally_owned cell = true
       /\ j ∈ get_dof_indices dh cell
       /\ fold_left (impose_pressure_on_cell dim max_value s dh) cells v !! j
          = Some (cell_pressure dim max_value
                    (get_function_values (dof_handler s) cell (relevant_solution s))).
Proof.
  revert v. induction cells as [|c cells IH]; intros v; simpl.
  - now left.
  - destruct (IH (impose_pressure_on_cell dim max_value s dh v c))
      as [Hsame|(cell & Hin & Hown & Hj & Hval)].
    + rewrite Hsame. unfold impose_pressure_on_cell.
      destruct (cell_is_locally_owned c) eqn:Hown; [|now left].
      destruct (write_indices_cases
                  (cell_pressure dim max_value
                     (get_function_values (dof_handler s) c (relevant_solution s)))
                  (get_dof_indices dh c) v j) as [H|[Hj H]].
      * left. exact H.
      * right. exists c. repeat split; auto. apply elem_of_cons; auto.
    + right. exists cell. repeat split; auto. apply elem_of_cons; auto.
Qed.

(** X7: [impose_pressure_values] keeps the length of the pressure vector; an
    entry either keeps its value or takes the value chosen on a locally
    owned cell that lists its index, so it ends as the old value, the full
    value or zero; and an index that no locally owned cell lists keeps its
    value. *)
Theorem impose_pressure_values_frame (max_value : Q) (p : PDSSolid) (index : nat) :
  let before := pressure_owned_solution p in
  let after := pressure_owned_solution (impose_pressure_values dim max_value p) in
  length after = length before
  /\ (after !! index = before !! index
      \/ exists cell, cell ∈ active_cells (triangulation p)
           /\ cell_is_locally_owned cell = true
           /\ index ∈ get_dof_indices (pressure_dof_handler p) cell
           /\ after !! index
              = Some (cell_pressure dim max_value
                        (get_function_values (dof_handler (phase_field_solver p))
                           cell (solution (phase_field_solver p)))))
  /\ (after !! index = before !! index
      \/ after !! index = Some max_value \/ after !! index = Some 0)
  /\ ((forall cell, cell ∈ active_cells (triangulation p) ->
         cell_is_locally_owned cell = true ->
         index ∉ get_dof_indices (pressure_dof_handler p) cell) ->
      after !! index = before !! index).
Proof.
  simpl. unfold impose_pressure_values. simpl.
  set (s := set_relevant_solution _ _).
  pose proof (impose_on_cells_cases max_value s (pressure_dof_handler p)
                (active_cells (triangulation p)) (pressure_owned_solution p) index)
    as Hcases.
  split; [apply impose_on_cells_length|].
  split; [exact Hcases|]. split.
  - destruct Hcases as [H|(cell & _ & _ & _ & H)]; [now left|].
    right. rewrite H. unfold cell_pressure. destruct (Qltb _ _); auto.
  - intros Hfree. now apply impose_on_cells_untouched.
Qed.

(** X8: After a refinement, the redo starts from pressure vectors that have one
    entry for each pressure degree of freedom of the refined mesh, all equal
    to the value of the time-pressure curve. *)
Theorem pressure_after_refinement_redo (t : TimeState) (p : PDSSolid) :
  let refined := execute_coarsening_and_refinement (triangulation p) in
  let p' := attempt_start data t (exectute_adaptive_refinement dim p) in
  pressure_dof_handler p' = distribute_pressure_dofs refined
  /\ pressure_owned_solution p'
     = replicate (n_dofs (distribute_pressure_dofs refined))
                 (pressure_function data (time t))
  /\ pressure_relevant_solution p' = pressure_owned_solution p'.
Proof.
  simpl. unfold assign_scalar. rewrite length_replicate. repeat split.
Qed.

End PressureFrame.

(** ** More on the Newton loop and the time loop *)

Section TimeLoopFacts.
Import EagleFrac.

Context {deal : DealII} {collab : Collaborators}.
Variable dim : nat.
Variable data : PhaseFieldPressurizedData.

Lemma newton_iteration_low_cap pressure time_steps old s :
  (0 <= max_newton_iter data <= 1)%Z ->
  fst (fst (newton_iteration data pressure time_steps old s))
  = max_newton_iter data.
Proof.
  intros Hcap. unfold newton_iteration.
  assert (Hcases : max_newton_iter data = 0%Z \/ max_newton_iter data = 1%Z) by lia.
  destruct Hcases as [H|H]; rewrite H; simpl.
  - reflexivity.
  - rewrite H. reflexivity.
Qed.

Lemma newton_iteration_negative_cap pressure time_steps old s :
  (max_newton_iter data < 0)%Z ->
  newton_iteration data pressure time_steps old s = (0%Z, old, s).
Proof.
  intros Hcap. unfold newton_iteration.
  destruct (max_newton_iter data); try lia. reflexivity.
Qed.

(** What a redo block does when its Newton loop ends at the cap. *)
Lemma redo_block_exhausted t p :
  fst (fst (attempt_newton data t p)) = max_newton_iter data ->
  (time_step t / 10 < minimum_time_step data ->
   exists p', redo_block dim data t p = Throw_NoConvergence t p')
  /\ (minimum_time_step data <= time_step t / 10 ->
      exists p', redo_block dim data t p = Goto redo_time_step (cut_time_step t) p').
Proof.
  intros Hexh. unfold redo_block.
  destruct (attempt_newton data t p) as [[n old] s]. simpl in Hexh. subst n.
  rewrite after_newton_exhausted. split; intros Hmin.
  - rewrite (proj2 (Qltb_true _ _) Hmin). eauto.
  - rewrite (proj2 (Qltb_false _ _) Hmin). eauto.
Qed.

(** X9: With an iteration cap of 0 or 1 the loop ends at the cap before any
    convergence test, so no attempt is ever accepted: every redo block ends
    in a step cut or in the exception.  With a negative cap the loop body
    never runs, the solver is left as it is and the attempt is never cut. *)
Theorem newton_cap_edge_cases (t : TimeState) (p : PDSSolid) :
  ((0 <= max_newton_iter data <= 1)%Z ->
   (exists p', redo_block dim data t p = Throw_NoConvergence t p')
   \/ (exists p', redo_block dim data t p
                  = Goto redo_time_step (cut_time_step t) p'))
  /\ ((max_newton_iter data < 0)%Z ->
      attempt_newton data t p
      = (0%Z, active_set (phase_field_solver (attempt_start data t p)),
         phase_field_solver (attempt_start data t p))
      /\ (forall t' p', redo_block dim data t p <> Throw_NoConvergence t' p')
      /\ redo_block dim data t p
         = after_newton dim data t (attempt_start data t p) 0).
Proof.
  split.
  - intros Hcap.
    destruct (redo_block_exhausted t p) as [Hthrow Hcut].
    { unfold attempt_newton. now apply newton_iteration_low_cap. }
    destruct (Qlt_le_dec (time_step t / 10) (minimum_time_step data)); auto.
  - intros Hcap.
    assert (Hnewton : attempt_newton data t p
              = (0%Z, active_set (phase_field_solver (attempt_start data t p)),
                 phase_field_solver (attempt_start data t p))).
    { unfold attempt_newton. now apply newton_iteration_negative_cap. }
    split; [exact Hnewton|].
    assert (Hredo : redo_block dim data t p
                    = after_newton dim data t (attempt_start data t p) 0).
    { unfold redo_block. rewrite Hnewton. reflexivity. }
    split; [|exact Hredo].
    intros t' p' H. rewrite Hredo in H.
    apply after_newton_throw in H as [H _]. lia.
Qed.

(** What the blocks of the time loop can end in. *)
Lemma block_end l t p :
  match block dim data l t p with
  | Goto _ _ _ => True
  | Return t' _ => t_max data <= time t'
  | Throw_NoConvergence t' _ =>
      l = redo_time_step /\ t' = t
      /\ time_step t / 10 < minimum_time_step data
      /\ fst (fst (attempt_newton data t p)) = max_newton_iter data
  end.
Proof.
  destruct l; simpl.
  - unfold while_block. destruct (Qltb _ _) eqn:H; [exact I|].
    now apply Qltb_false in H.
  - unfold redo_block. destruct (attempt_newton data t p) as [[n old] s]. simpl.
    destruct (after_newton _ _ _ _ _) as [l' t' p'|t' p'|t' p'] eqn:Hafter.
    + exact I.
    + unfold after_newton in Hafter.
      destruct (n =? max_newton_iter data)%Z.
      { destruct (Qltb _ _); discriminate. }
      match type of Hafter with
      | context [let '(refine, p) := ?c in _] => destruct c as [[|] q]
      end; [discriminate|].
      unfold accept_step in Hafter. destruct (Qltb _ _) eqn:H; [discriminate|].
      injection Hafter as <- _. simpl. now apply Qltb_false in H.
    + apply after_newton_throw in Hafter as (Hn & Hmin & -> & _). auto.
Qed.

(** X10: The time loop only returns once the time has reached [t_max], and
    only throws from an attempt whose step, divided by ten, is below the
    minimum time step. *)
Theorem run_ends_at_t_max_or_below_minimum (fuel : nat) (l : Label)
    (t : TimeState) (p : PDSSolid) (c : Control) :
  run_blocks dim data fuel l t p = Some c ->
  match c with
  | Goto _ _ _ => False
  | Return t' _ => t_max data <= time t'
  | Throw_NoConvergence t' _ => time_step t' / 10 < minimum_time_step data
  end.
Proof.
  revert l t p. induction fuel as [|fuel IH]; intros l t p; simpl; [discriminate|].
  pose proof (block_end l t p) as Hend.
  destruct (block dim data l t p) as [l' t' p'|t' p'|t' p'].
  - apply IH.
  - intros [= <-]. exact Hend.
  - intros [= <-]. destruct Hend as (_ & -> & Hmin & _). exact Hmin.
Qed.

End TimeLoopFacts.

Lemma run_ends_at_t_max_or_below_minimum_witness :
  exists t' p',
    EagleFrac.run (collab := Toy.toy_collab false) 1 (Toy.toy_data 0) 4
      (Toy.toy_solid false)
    = Some (EagleFrac.Return t' p')
    /\ EagleFrac.t_max (Toy.toy_data 0) <= EagleFrac.time t'.
Proof.
  eexists _, _. split.
  - compute_lhs. reflexivity.
  - refine (run_ends_at_t_max_or_below_minimum
              (collab := Toy.toy_collab false) 1 (Toy.toy_data 0) 4
              EagleFrac.while_head
              (EagleFrac.initial_time_state (Toy.toy_data 0)) (Toy.toy_solid false)
              (EagleFrac.Return _ _) _).
    compute_lhs. reflexivity.
Defined.

Lemma newton_cap_edge_cases_witness :
  exists p',
    EagleFrac.redo_block (collab := Toy.toy_collab false) 1
      (with_cap 1 (Toy.toy_data 0)) Toy.toy_first_attempt (Toy.toy_solid false)
    = EagleFrac.Goto EagleFrac.redo_time_step
        (EagleFrac.cut_time_step Toy.toy_first_attempt) p'.
Proof.
  destruct (newton_cap_edge_cases (collab := Toy.toy_collab false) 1
              (with_cap 1 (Toy.toy_data 0)) Toy.toy_first_attempt
              (Toy.toy_solid false)) as [Hlow _].
  assert (Hcap : (0 <= EagleFrac.max_newton_iter (with_cap 1 (Toy.toy_data 0)) <= 1)%Z)
    by (simpl; lia).
  destruct (Hlow Hcap) as [[p' Hthrow]|Hcut].
  - exfalso.
    assert (Hgo : exists q,
              EagleFrac.redo_block (collab := Toy.toy_collab false) 1
                (with_cap 1 (Toy.toy_data 0)) Toy.toy_first_attempt
                (Toy.toy_solid false)
              = EagleFrac.Goto EagleFrac.redo_time_step
                  (EagleFrac.cut_time_step Toy.toy_first_attempt) q)
      by (eexists; compute_lhs; reflexivity).
    destruct Hgo as [q Hq]. rewrite Hq in Hthrow. discriminate Hthrow.
  - exact Hcut.
Defined.

(** ** Repeated cuts *)

Section RepeatedCuts.
Import EagleFrac.

Context {deal : DealII} {collab : Collaborators}.
Variable dim : nat.
Variable data : PhaseFieldPressurizedData.

Local Abbreviation never_converges := (never_converges data).

Lemma tenth (x : Q) : x / 10 == x * (1 # 10).
Proof. field. Qed.

(** X12: When no attempt converges and the minimum time step is positive, the
    time loop ends in the exception, whatever the step it starts from. *)
Theorem cuts_end_in_exception (t : TimeState) (p : PDSSolid) :
  never_converges ->
  0 < minimum_time_step data ->
  exists fuel t' p',
    run_blocks dim data fuel redo_time_step t p = Some (Throw_NoConvergence t' p').
Proof.
  intros Hnever Hmin.
  assert (Hbound : exists N : nat,
            time_step t < minimum_time_step data * inject_Z (Z.of_nat N)).
  { destruct (Qarchimedean (time_step t / minimum_time_step data)) as [n Hn].
    exists (Pos.to_nat n). rewrite positive_nat_Z.
    assert (Heq : time_step t
                  == time_step t / minimum_time_step data * minimum_time_step data)
      by (field; lra).
    rewrite Heq at 1. rewrite (Qmult_comm (minimum_time_step data)).
    now apply Qmult_lt_compat_r. }
  destruct Hbound as [N HN]. revert t p HN.
  induction N as [|N IH]; intros t p HN.
  - destruct (redo_block_exhausted dim data t p (Hnever t p)) as [Hthrow _].
    destruct Hthrow as [p' Hp'].
    { change (inject_Z (Z.of_nat 0)) with 0 in HN. rewrite tenth. lra. }
    exists 1%nat, t, p'. simpl. now rewrite Hp'.
  - destruct (Qlt_le_dec (time_step t / 10) (minimum_time_step data)) as [Hlt|Hge].
    + destruct (redo_block_exhausted dim data t p (Hnever t p)) as [Hthrow _].
      destruct (Hthrow Hlt) as [p' Hp'].
      exists 1%nat, t, p'. simpl. now rewrite Hp'.
    + destruct (redo_block_exhausted dim data t p (Hnever t p)) as [_ Hcut].
      destruct (Hcut Hge) as [p1 Hp1].
      destruct (IH (cut_time_step t) p1) as (fuel & t' & p' & Hrun).
      { simpl. rewrite tenth in *. rewrite Nat2Z.inj_succ in HN. unfold Z.succ in HN.
        rewrite inject_Z_plus in HN. change (inject_Z 1) with 1 in HN.
        assert (Hn0 : 0 <= inject_Z (Z.of_nat N)).
        { change 0 with (inject_Z 0). rewrite <- Zle_Qle. lia. }
        destruct N as [|N].
        - change (inject_Z (Z.of_nat 0)) with 0 in HN. lra.
        - rewrite Nat2Z.inj_succ in *. unfold Z.succ in *.
          rewrite inject_Z_plus in *. change (inject_Z 1) with 1 in *.
          assert (0 <= inject_Z (Z.of_nat N)).
          { change 0 with (inject_Z 0). rewrite <- Zle_Qle. lia. }
          nra. }
      exists (S fuel), t', p'. simpl. now rewrite Hp1.
Qed.

(** X13: When no attempt converges and the minimum time step is zero or
    negative, the cuts of a non-negative step go on for ever: the time loop
    neither returns nor throws. *)
Theorem cuts_never_end_without_minimum (t : TimeState) (p : PDSSolid) (fuel : nat) :
  never_converges ->
  minimum_time_step data <= 0 ->
  0 <= time_step t ->
  run_blocks dim data fuel redo_time_step t p = None.
Proof.
  intros Hnever Hmin. revert t p. induction fuel as [|fuel IH]; intros t p Hstep.
  - reflexivity.
  - simpl.
    destruct (redo_block_exhausted dim data t p (Hnever t p)) as [_ Hcut].
    destruct Hcut as [p1 Hp1]; [rewrite tenth; lra|]. rewrite Hp1.
    apply IH. simpl. rewrite tenth. lra.
Qed.

(** X14: Every way back to the redo label keeps the time at which the step
    started (the time minus the step), the old step size and the step
    number: all attempts of one time step start from the same time. *)
Theorem redo_keeps_start_of_step (t t' : TimeState) (p p' : PDSSolid) :
  redo_block dim data t p = Goto redo_time_step t' p' ->
  time t' - time_step t' == time t - time_step t
  /\ old_time_step t' = old_time_step t
  /\ time_step_number t' = time_step_number t
  /\ (time_step t' = time_step t \/ time_step t' = time_step t / 10).
Proof.
  unfold redo_block. destruct (attempt_newton data t p) as [[n old] s].
  unfold after_newton.
  destruct (n =? max_newton_iter data)%Z.
  - destruct (Qltb _ _); [discriminate|].
    intros [= <- <-]. simpl. repeat split; auto. field.
  - match goal with
    | |- context [let '(refine, p) := ?c in _] => destruct c as [[|] q]
    end.
    + intros [= <- <-]. repeat split; auto; reflexivity.
    + unfold accept_step. destruct (Qltb _ _); discriminate.
Qed.

End RepeatedCuts.

Lemma never_converges_with_cap_1 (stuck : bool) :
  EagleFrac.never_converges (collab := Toy.toy_collab stuck)
    (with_cap 1 (Toy.toy_data 0)).
Proof.
  intros t p. unfold EagleFrac.attempt_newton.
  apply newton_iteration_low_cap. simpl. lia.
Qed.

Lemma never_converges_without_minimum (stuck : bool) :
  EagleFrac.never_converges (collab := Toy.toy_collab stuck)
    (with_minimum 0 (with_cap 1 (Toy.toy_data 0))).
Proof.
  intros t p. unfold EagleFrac.attempt_newton.
  apply newton_iteration_low_cap. simpl. lia.
Qed.

Lemma cuts_end_in_exception_witness :
  exists fuel t' p',
    EagleFrac.run_blocks (collab := Toy.toy_collab false) 1
      (with_cap 1 (Toy.toy_data 0)) fuel EagleFrac.redo_time_step
      Toy.toy_first_attempt (Toy.toy_solid false)
    = Some (EagleFrac.Throw_NoConvergence t' p').
Proof.
  apply (cuts_end_in_exception (collab := Toy.toy_collab false) 1
           (with_cap 1 (Toy.toy_data 0)) Toy.toy_first_attempt (Toy.toy_solid false)).
  - apply never_converges_with_cap_1.
  - vm_compute; reflexivity.
Defined.

Lemma cuts_never_end_without_minimum_witness :
  EagleFrac.run_blocks (collab := Toy.toy_collab false) 1
    (with_minimum 0 (with_cap 1 (Toy.toy_data 0))) 50 EagleFrac.redo_time_step
    Toy.toy_first_attempt (Toy.toy_solid false)
  = None.
Proof.
  apply (cuts_never_end_without_minimum (collab := Toy.toy_collab false) 1
           (with_minimum 0 (with_cap 1 (Toy.toy_data 0)))).
  - apply never_converges_without_minimum.
  - intros H; vm_compute in H; discriminate H.
  - intros H; vm_compute in H; discriminate H.
Defined.

Lemma redo_keeps_start_of_step_witness :
  exists t' p',
    EagleFrac.redo_block (collab := Toy.toy_collab true) 1 (Toy.toy_data 0)
      Toy.toy_first_attempt (Toy.toy_solid true)
    = EagleFrac.Goto EagleFrac.redo_time_step t' p'
    /\ EagleFrac.time t' - EagleFrac.time_step t' == 10 - 10.
Proof.
  eexists _, _. split.
  - compute_lhs. reflexivity.
  - refine (proj1 (redo_keeps_start_of_step (collab := Toy.toy_collab true) 1
                     (Toy.toy_data 0) Toy.toy_first_attempt _ (Toy.toy_solid true)
                     _ _)).
    compute_lhs. reflexivity.
Defined.

(** ** The numbering of the outputs *)

Lemma output_step_numbers_app (a b : list EagleFrac.Call) :
  output_step_numbers (a ++ b) = output_step_numbers a ++ output_step_numbers b.
Proof.
  induction a as [|c a IH]; simpl; [reflexivity|].
  destruct c; simpl; now rewrite IH.
Qed.

Lemma first_steps_succ (n : Z) :
  (1 <= n)%Z -> first_steps n = first_steps (n - 1) ++ [n].
Proof.
  intros Hn. unfold first_steps.
  replace (Z.to_nat n) with (S (Z.to_nat (n - 1))) by lia.
  rewrite seq_S, map_app. simpl. f_equal. f_equal. lia.
Qed.

Section OutputNumberingFacts.
Import EagleFrac.

Context {deal : DealII} {collab : Collaborators}.
Variable dim : nat.
Variable data : PhaseFieldPressurizedData.

Lemma refinement_outputs (p : PDSSolid) :
  output_step_numbers (calls (exectute_adaptive_refinement dim p))
  = output_step_numbers (calls p).
Proof.
  simpl. unfold log_call; simpl.
  rewrite !output_step_numbers_app. simpl. now rewrite !app_nil_r.
Qed.

Lemma accept_step_outputs (t : TimeState) (p : PDSSolid) :
  exists t' p',
    (accept_step data t p = Goto while_head t' p'
     \/ accept_step data t p = Return t' p')
    /\ time_step_number t' = time_step_number t
    /\ output_step_numbers (calls p')
       = output_step_numbers (calls p) ++ [time_step_number t].
Proof.
  unfold accept_step.
  destruct (Qltb _ _); eexists _, _; (split; [eauto|]); simpl;
    (split; [reflexivity|]);
    rewrite !output_step_numbers_app; simpl; now rewrite app_nil_r.
Qed.

Lemma block_keeps_numbering (l : Label) (t : TimeState) (p : PDSSolid) :
  outputs_numbered l t p ->
  match block dim data l t p with
  | Goto l' t' p' => outputs_numbered l' t' p'
  | Return t' p' =>
      output_step_numbers (calls p') = first_steps (time_step_number t')
  | Throw_NoConvergence t' p' =>
      output_step_numbers (calls p') = first_steps (time_step_number t' - 1)
  end.
Proof.
  destruct l; simpl; intros [Hn Hout].
  - unfold while_block. destruct (Qltb _ _); simpl; [|exact Hout].
    split; [lia|]. rewrite Hout. f_equal. lia.
  - unfold redo_block. destruct (attempt_newton data t p) as [[n old] s].
    unfold after_newton.
    destruct (n =? max_newton_iter data)%Z.
    { destruct (Qltb _ _); simpl; [exact Hout | split; [exact Hn | exact Hout]]. }
    assert (Haccept : forall q, calls q = calls p ->
              match accept_step data t q with
              | Goto l' t' p' => outputs_numbered l' t' p'
              | Return t' p' =>
                  output_step_numbers (calls p') = first_steps (time_step_number t')
              | Throw_NoConvergence t' p' =>
                  output_step_numbers (calls p')
                  = first_steps (time_step_number t' - 1)
              end).
    { intros q Hq.
      destruct (accept_step_outputs t q) as (t' & p' & [H|H] & Hnum & Hcalls);
        rewrite H; simpl; rewrite Hcalls, Hq, Hout, Hnum;
        [split; [lia|] |]; symmetry; now apply first_steps_succ. }
    destruct (0 <? n_adaptive_steps data)%Z.
    + destruct (prepare_phase_field_refinement _ _ _ _) as [[|] tria].
      * split; [exact Hn|].
        rewrite refinement_outputs. simpl. exact Hout.
      * now apply Haccept.
    + now apply Haccept.
Qed.

Lemma run_blocks_keep_numbering (fuel : nat) (l : Label) (t : TimeState)
    (p : PDSSolid) (c : Control) :
  outputs_numbered l t p ->
  run_blocks dim data fuel l t p = Some c ->
  match c with
  | Goto _ _ _ => False
  | Return t' p' =>
      output_step_numbers (calls p') = first_steps (time_step_number t')
  | Throw_NoConvergence t' p' =>
      output_step_numbers (calls p') = first_steps (time_step_number t' - 1)
  end.
Proof.
  revert l t p. induction fuel as [|fuel IH]; intros l t p Hinv; simpl;
    [discriminate|].
  pose proof (block_keeps_numbering l t p Hinv) as Hblock.
  destruct (block dim data l t p) as [l' t' p'|t' p'|t' p'].
  - now apply IH.
  - intros [= <-]. exact Hblock.
  - intros [= <-]. exact Hblock.
Qed.

(** X15: Started with an empty output log, the time loop writes one output for
    each accepted step and none for a redo: when it returns, the outputs
    carry the step numbers 1, 2, ..., up to the final step number, in this
    order; when it throws, those of all steps before the failing one. *)
Theorem outputs_are_numbered_consecutively (fuel : nat) (p : PDSSolid)
    (c : Control) :
  output_step_numbers (calls p) = [] ->
  run dim data fuel p = Some c ->
  match c with
  | Goto _ _ _ => False
  | Return t' p' =>
      output_step_numbers (calls p') = first_steps (time_step_number t')
  | Throw_NoConvergence t' p' =>
      output_step_numbers (calls p') = first_steps (time_step_number t' - 1)
  end.
Proof.
  intros Hempty. unfold run. apply run_blocks_keep_numbering.
  simpl. split; [lia | exact Hempty].
Qed.

End OutputNumberingFacts.

Lemma outputs_are_numbered_consecutively_witness :
  exists t' p',
    EagleFrac.run (collab := Toy.toy_collab false) 1 (Toy.toy_data 0) 4
      (Toy.toy_solid false)
    = Some (EagleFrac.Return t' p')
    /\ output_step_numbers (EagleFrac.calls p') = [1%Z].
Proof.
  eassert (Hrun : EagleFrac.run (collab := Toy.toy_collab false) 1 (Toy.toy_data 0) 4
                    (Toy.toy_solid false)
                  = Some (EagleFrac.Return _ _))
    by (compute_lhs; reflexivity).
  pose proof (outputs_are_numbered_consecutively (collab := Toy.toy_collab false) 1
                (Toy.toy_data 0) 4 (Toy.toy_solid false) _ eq_refl Hrun) as Hout.
  eexists _, _. split; [exact Hrun | exact Hout].
Defined.

Lemma impose_pressure_values_frame_witness :
  EagleFrac.pressure_owned_solution
    (EagleFrac.impose_pressure_values (collab := Toy.toy_collab false) 1 5
       (Toy.toy_solid false)) !! 7%nat
  = EagleFrac.pressure_owned_solution (Toy.toy_solid false) !! 7%nat.
Proof.
  destruct (impose_pressure_values_frame (collab := Toy.toy_collab false) 1 5
              (Toy.toy_solid false) 7) as (_ & _ & _ & Hfree).
  apply Hfree. intros cell Hcell _ Hin. simpl in Hcell, Hin.
  apply elem_of_cons in Hcell as [->|Hcell]; [|now apply elem_of_nil in Hcell].
  repeat (apply elem_of_cons in Hin as [Hin|Hin]; [discriminate Hin|]).
  now apply elem_of_nil in Hin.
Defined.

(** ** More on the residual assembly and the stress decomposition *)

(** X17: The factor on the tensile term is at least kappa, hence positive,
    whatever the extrapolated phase field; it is at most 1 exactly when the
    extrapolated value lies between -1 and 1, so an extrapolation that
    overshoots 1 stiffens the material beyond its intact state. *)
Theorem degradation_bounds (c : phase_field.CellValues) (q : nat) :
  let phi_e := phase_field.phi_extrapolated c q in
  phi_e == 2 * phase_field.old_phi_values c q - phase_field.old_old_phi_values c q
  /\ phase_field.kappa <= phase_field.degradation phi_e
  /\ 0 < phase_field.degradation phi_e
  /\ (phase_field.degradation phi_e <= 1 <-> -(1) <= phi_e /\ phi_e <= 1).
Proof.
  simpl. generalize (phase_field.phi_extrapolated c q) at 2 3 4 5 6 as x.
  intros x. unfold phase_field.degradation, phase_field.kappa.
  split; [unfold phase_field.phi_extrapolated; ring|].
  assert (Hsq : 0 <= x * x) by nra.
  split; [nra|]. split; [nra|]. split.
  - intros H. assert (x * x <= 1) by nra. split; nra.
  - intros [H1 H2]. assert (x * x <= 1) by nra. nra.
Qed.

Lemma degradation_bounds_witness :
  1 < phase_field.degradation
        (phase_field.phi_extrapolated
           {| phase_field.is_locally_owned := true;
              phase_field.JxW := fun _ => 1;
              phase_field.strain_tensor := fun _ => strain_stretch;
              phase_field.phi_values := fun _ => 1;
              phase_field.old_phi_values := fun _ => 1;
              phase_field.old_old_phi_values := fun _ => 0;
              phase_field.grad_phi_values := fun _ => phase_field.axis 0;
              phase_field.symmetric_gradient := fun _ _ => phase_field.unit_symmetric_tensor;
              phase_field.value := fun _ _ => 1;
              phase_field.gradient := fun _ _ => phase_field.axis 1 |} 0).
Proof.
  match goal with
  | |- 1 < phase_field.degradation (phase_field.phi_extrapolated ?c ?q) =>
      destruct (degradation_bounds c q) as (_ & _ & _ & Hiff)
  end.
  apply Qnot_le_lt. intros Hle. apply Hiff in Hle as [_ Hle].
  vm_compute in Hle. now apply Hle.
Defined.

Section AssemblyFacts.
Import phase_field.

Variable dim : nat.
Variable get_strain_tensor_plus : SymmetricTensor -> SymmetricTensor.
Variable dofs_per_cell : nat.
Variable n_q_points : nat.

Local Abbreviation assemble :=
  (assemble_rhs_vector dim get_strain_tensor_plus dofs_per_cell n_q_points).
Local Abbreviation assemble_one :=
  (assemble_cell dim get_strain_tensor_plus dofs_per_cell n_q_points).

Lemma accumulate_length (g : nat -> Q) (n : nat) (l : list Q) :
  length (fold_left (fun l i => alter (fun r => r + g i) i l) (seq 0 n) l)
  = length l.
Proof.
  induction n as [|n IH]; [reflexivity|].
  rewrite seq_S, fold_left_app. simpl. now rewrite length_alter.
Qed.

Lemma assemble_cell_length (c : CellValues) :
  length (assemble_one c) = dofs_per_cell.
Proof.
  unfold assemble_cell. induction n_q_points as [|n IH].
  - simpl. apply length_replicate.
  - rewrite seq_S, fold_left_app. simpl.
    unfold add_quadrature_point at 1.
    rewrite (surjective_pairing (get_stress_decomposition _ _ _)).
    unfold add_shape_contribution.
    rewrite (accumulate_length
               (fun i => _ * JxW c (0 + n)%nat)). exact IH.
Qed.

(** X18: The cell loop stops at its first locally owned cell: the cells before it
    are skipped, the cells after it are never visited, whatever they hold;
    the local right-hand side has [dofs_per_cell] entries; and nothing is
    assembled exactly when no cell is locally owned. *)
Theorem assembly_stops_at_first_owned_cell (skipped : list CellValues)
    (cell : CellValues) (rest rest' : list CellValues) :
  (Forall (fun c => is_locally_owned c = false) skipped ->
   is_locally_owned cell = true ->
   assemble (skipped ++ cell :: rest) = Some (assemble_one cell)
   /\ assemble (skipped ++ cell :: rest) = assemble (skipped ++ cell :: rest')
   /\ length (assemble_one cell) = dofs_per_cell)
  /\ (assemble rest = None <-> Forall (fun c => is_locally_owned c = false) rest).
Proof.
  assert (Hfirst : forall tail,
            Forall (fun c => is_locally_owned c = false) skipped ->
            is_locally_owned cell = true ->
            assemble (skipped ++ cell :: tail) = Some (assemble_one cell)).
  { intros tail Hskip Hown. induction Hskip as [|c skipped Hc _ IH]; simpl.
    - now rewrite Hown.
    - now rewrite Hc. }
  split.
  - intros Hskip Hown. split; [now apply Hfirst|].
    split; [|apply assemble_cell_length].
    now rewrite !Hfirst.
  - induction rest as [|c cells IH]; simpl.
    + split; [constructor | reflexivity].
    + destruct (is_locally_owned c) eqn:Hc.
      * split; [discriminate|]. intros H. inversion H; congruence.
      * rewrite IH. split; [now constructor | intros H; now inversion H].
Qed.

(** X19: The volumetric term goes to one side only: when the trace of the strain
    is not negative, the compression stress is 2 mu times the strain minus
    its positive part, without any lambda term; when the trace is not
    positive, the tension stress is 2 mu times the positive part alone. *)
Theorem volumetric_term_is_one_sided (eps : SymmetricTensor) :
  (0 <= trace dim eps ->
   forall i j,
     snd (get_stress_decomposition dim get_strain_tensor_plus eps) i j
     == 2 * mu * (eps i j - get_strain_tensor_plus eps i j))
  /\ (trace dim eps <= 0 ->
      forall i j,
        fst (get_stress_decomposition dim get_strain_tensor_plus eps) i j
        == 2 * mu * get_strain_tensor_plus eps i j).
Proof.
  split; intros Htr i j.
  - rewrite stress_minus_entry.
    pose proof (std_max_zero_of_nonneg _ Htr) as Hmax.
    unfold lambda, mu. destruct ((i =? j)%nat && (i <? 2)%nat); lra.
  - rewrite stress_plus_entry.
    assert (Hmax : std_max (trace dim eps) 0 == 0).
    { unfold std_max. destruct (Qlt_le_dec (trace dim eps) 0); lra. }
    unfold lambda, mu. destruct ((i =? j)%nat && (i <? 2)%nat); lra.
Qed.

End AssemblyFacts.

Lemma assembly_stops_at_first_owned_cell_witness :
  phase_field.assemble_rhs_vector 2 phase_field.clip_diagonal 3 4 example_cells
  = phase_field.assemble_rhs_vector 2 phase_field.clip_diagonal 3 4
      [example_cell false; example_cell true].
Proof.
  destruct (assembly_stops_at_first_owned_cell 2 phase_field.clip_diagonal 3 4
              [example_cell false] (example_cell true) [example_cell true] [])
    as [Hfirst _].
  destruct Hfirst as (_ & Hsame & _).
  - repeat constructor.
  - reflexivity.
  - exact Hsame.
Defined.

Lemma volumetric_term_is_one_sided_witness :
  snd (phase_field.get_stress_decomposition 2 phase_field.clip_diagonal
         strain_stretch) 0%nat 0%nat
  == 2 * phase_field.mu
     * (strain_stretch 0%nat 0%nat
        - phase_field.clip_diagonal strain_stretch 0%nat 0%nat).
Proof.
  destruct (volumetric_term_is_one_sided 2 phase_field.clip_diagonal strain_stretch)
    as [Hpos _].
  apply Hpos. intros H; vm_compute in H; discriminate H.
Defined.

Lemma attempts_above_minimum_witness :
  Forall (fun a => 1 # 2 <= EagleFrac.time_step a)
    (EagleFrac.attempts (collab := Toy.toy_collab true) 1 (Toy.toy_data 0) 4
       EagleFrac.while_head (EagleFrac.initial_time_state (Toy.toy_data 0))
       (Toy.toy_solid true)).
Proof.
  apply (attempts_above_minimum (collab := Toy.toy_collab true) 1 (Toy.toy_data 0)).
  - intros x H. vm_compute in H. discriminate H.
  - discriminate.
Defined.
